(** * DataService: the JSON-file document store of the doctor web server

    A shallow embedding of [src/services/data.service.ts] (class
    [DataService]) together with the record shapes of [src/types/index.ts],
    and the properties of the store that the specification states.

    The service keeps no state of its own: every operation reads one JSON
    file of the [data] directory, works on the parsed value and, for the
    mutating operations, writes the whole file back.  The embedding threads
    an explicit [World] (the disk, the clock, the random source, the console)
    through a small state-and-exception monad. *)

From Stdlib Require Import ZArith String Ascii List.
From stdpp Require Import gmap strings list fin_maps.

Local Open Scope string_scope.
Local Open Scope list_scope.
Local Open Scope Z_scope.

(** ** JavaScript built-ins used by the service *)

Module JS.

(** [Number.prototype.toString(36)] on an integer: digits [0-9a-z]. *)
Definition digit36 (d : Z) : ascii :=
  if d <? 10 then ascii_of_N (Z.to_N (48 + d)) else ascii_of_N (Z.to_N (87 + d)).

Fixpoint digits36 (fuel : nat) (n : Z) (acc : string) : string :=
  match fuel with
  | O => acc
  | S fuel' =>
      let acc' := String (digit36 (n mod 36)) acc in
      if n / 36 =? 0 then acc' else digits36 fuel' (n / 36) acc'
  end.

Definition toString36 (n : Z) : string :=
  if n <? 0
  then String "-" (digits36 (S (Z.to_nat (Z.log2 (- n)))) (- n) "")
  else digits36 (S (Z.to_nat (Z.log2 n))) n "".

(** [String.prototype.substr(start)]: the rest of the string from index
    [start]; empty when the string is shorter. *)
Fixpoint substr (start : nat) (s : string) : string :=
  match start, s with
  | O, _ => s
  | S _, EmptyString => EmptyString
  | S k, String _ s' => substr k s'
  end.

(** Decimal rendering of [n] on exactly [width] digits. *)
Fixpoint pad_dec (width : nat) (n : Z) : string :=
  match width with
  | O => ""
  | S w => pad_dec w (n / 10) +:+ String (ascii_of_N (Z.to_N (48 + n mod 10))) ""
  end.

(** Year, month and day of a day number counted from 1970-01-01
    (proleptic Gregorian calendar, as ECMAScript's YearFromTime,
    MonthFromTime and DateFromTime compute them). *)
Definition civil_from_days (days : Z) : Z * Z * Z :=
  let z := days + 719468 in
  let era := z / 146097 in
  let doe := z - era * 146097 in
  let yoe := (doe - doe / 1460 + doe / 36524 - doe / 146096) / 365 in
  let doy := doe - (365 * yoe + yoe / 4 - yoe / 100) in
  let mp := (5 * doy + 2) / 153 in
  let d := doy - (153 * mp + 2) / 5 + 1 in
  let m := if mp <? 10 then mp + 3 else mp - 9 in
  let y := yoe + era * 400 in
  (if m <=? 2 then y + 1 else y, m, d).

(** [Date.prototype.toISOString] of the instant [t], in milliseconds since
    the epoch: [YYYY-MM-DDTHH:mm:ss.sssZ], with a signed six-digit year
    outside 0..9999. *)
Definition toISOString (t : Z) : string :=
  let '(y, m, d) := civil_from_days (t / 86400000) in
  let ms := t mod 86400000 in
  let year :=
    if (0 <=? y) && (y <=? 9999) then pad_dec 4 y
    else if y <? 0 then String "-" (pad_dec 6 (- y))
    else String "+" (pad_dec 6 y) in
  year +:+ "-" +:+ pad_dec 2 m +:+ "-" +:+ pad_dec 2 d +:+ "T" +:+
  pad_dec 2 (ms / 3600000) +:+ ":" +:+ pad_dec 2 (ms / 60000 mod 60) +:+ ":" +:+
  pad_dec 2 (ms / 1000 mod 60) +:+ "." +:+ pad_dec 3 (ms mod 1000) +:+ "Z".

(** [Array.prototype.findIndex]: the index of the first element that
    satisfies [p], or [-1]. *)
Fixpoint findIndex_from {A : Type} (p : A → bool) (l : list A) (i : Z) : Z :=
  match l with
  | [] => -1
  | x :: l' => if p x then i else findIndex_from p l' (i + 1)
  end.

Definition findIndex {A : Type} (p : A → bool) (l : list A) : Z :=
  findIndex_from p l 0.

(** [String(i)] for an array index [i]: its decimal digits. *)
Fixpoint digits10 (fuel : nat) (n : Z) (acc : string) : string :=
  match fuel with
  | O => acc
  | S fuel' =>
      let acc' := String (ascii_of_N (Z.to_N (48 + n mod 10))) acc in
      if n / 10 =? 0 then acc' else digits10 fuel' (n / 10) acc'
  end.

Definition index_key (i : nat) : string :=
  digits10 (S (Z.to_nat (Z.log2 (Z.of_nat i)))) (Z.of_nat i) "".

End JS.

(** ** Data model *)

#[local] Set Warnings "-register-all".

(** A JSON value, as [JSON.parse] returns it and [JSON.stringify] writes it.
    The service never looks inside a number, an array or an embedded object;
    it only copies them. *)
Inductive value : Type :=
| VNull
| VBool (b : bool)
| VNum (n : Z)
| VStr (s : string)
| VArr (items : list value)
| VObj (fields : list (string * value)).

(** A record ([Page], [BlogPost], [Doctor], [CaseStudy], [SEOSettings]) is a
    JavaScript object: a finite map from field names to values.  A field the
    object does not have reads as [undefined], here [None]. *)
Abbreviation record := (gmap string value).

(** What a data file parses to: an array of records for a collection, one
    record for a singleton document. *)
Inductive document : Type :=
| DArray (rs : list record)
| DObject (r : record).

(** A file on disk: text that [JSON.parse] rejects, or the text of a
    document.  [JSON.parse] gives back the document that [JSON.stringify]
    was given, so the disk holds the document itself. *)
Inductive file : Type :=
| Corrupt
| Json (d : document).

(** What the service leaves behind, beside the files. *)
Inductive output : Type :=
| ConsoleError (msg : string)
| Wrote (filename : string).

(** The world the service runs in.
    - [disk]: the files of the data directory, by file name; a name that is
      not bound is a file that cannot be read.
    - [readonly]: the files [fs.writeFile] refuses to write.
    - [clock]: the readings the system clock gives, in milliseconds, in the
      order in which they are asked for ([Date.now()], [new Date()]).
    - [random]: the renderings [Math.random().toString(36)] of the numbers
      the random source gives, in the order in which they are drawn.
    - [trace]: what the service has printed and written, most recent first. *)
Record World : Type := mkWorld {
  disk : gmap string file;
  readonly : gset string;
  clock : nat → Z;
  random : nat → string;
  trace : list output
}.

(** The world after [data] has been written to [f]. *)
Definition written (f : string) (data : document) (w : World) : World :=
  mkWorld (<[f := Json data]> (disk w)) (readonly w) (clock w) (random w)
          (Wrote f :: trace w).

(** The world after [msg] has been printed on the console. *)
Definition printed (msg : string) (w : World) : World :=
  mkWorld (disk w) (readonly w) (clock w) (random w) (ConsoleError msg :: trace w).

(** The world after one reading of the clock, and after one draw from the
    random source. *)
Definition tick (w : World) : World :=
  mkWorld (disk w) (readonly w) (λ n, clock w (S n)) (random w) (trace w).

Definition draw (w : World) : World :=
  mkWorld (disk w) (readonly w) (clock w) (λ n, random w (S n)) (trace w).

(** What a JavaScript operation throws. *)
Inductive exn : Type :=
| Error (message : string)
| SyntaxError
| TypeError.

(** ** The monad of asynchronous operations

    A computation takes the world and gives an exception or a result, and the
    world it leaves behind. *)
Definition M (A : Type) : Type := World → (exn + A) * World.

Definition ret {A : Type} (a : A) : M A := λ w, (inr a, w).

Definition throw {A : Type} (e : exn) : M A := λ w, (inl e, w).

Definition bind {A B : Type} (c : M A) (k : A → M B) : M B :=
  λ w, match c w with
       | (inl e, w') => (inl e, w')
       | (inr a, w') => k a w'
       end.

(** [try { c } catch (error) { h }] *)
Definition try_catch {A : Type} (c : M A) (h : exn → M A) : M A :=
  λ w, match c w with
       | (inl e, w') => h e w'
       | (inr a, w') => (inr a, w')
       end.

Notation "'let*' x ':=' c 'in' k" := (bind c (λ x, k))
  (at level 10, x name, c at level 100, k at level 200).

Notation "c ';;' k" := (bind c (λ _, k))
  (at level 100, k at level 200, right associativity).

(** *** Primitive effects *)

(** [JSON.parse(await fs.readFile(filePath, 'utf-8'))] *)
Definition fs_readFile_parse (filename : string) : M document :=
  λ w, match disk w !! filename with
       | Some (Json d) => (inr d, w)
       | Some Corrupt => (inl SyntaxError, w)
       | None => (inl (Error "ENOENT"), w)
       end.

(** [await fs.writeFile(filePath, JSON.stringify(data, null, 2), 'utf-8')]:
    the file is replaced as a whole, or the write is refused and the disk
    stays as it is. *)
Definition fs_writeFile (filename : string) (data : document) : M unit :=
  λ w, if decide (filename ∈ readonly w)
       then (inl (Error "EACCES"), w)
       else (inr tt, written filename data w).

(** [console.error(msg, error)] *)
Definition console_error (msg : string) : M unit :=
  λ w, (inr tt, printed msg w).

(** [Date.now()]: one reading of the clock. *)
Definition Date_now : M Z :=
  λ w, (inr (clock w O), tick w).

(** [new Date().toISOString()]: one reading of the clock, rendered. *)
Definition new_Date_toISOString : M string :=
  let* t := Date_now in ret (JS.toISOString t).

(** [Math.random().toString(36)]: one draw. *)
Definition Math_random_toString36 : M string :=
  λ w, (inr (random w O), draw w).

(** Calling an array method ([find], [findIndex], [filter], [push]) on what
    [readDataFile] returned: a [TypeError] unless it is an array. *)
Definition array (d : document) : M (list record) :=
  match d with
  | DArray rs => ret rs
  | DObject _ => throw TypeError
  end.

(** [o.field === s] for a string [s]. *)
Definition field_is (field : string) (s : string) (o : record) : bool :=
  match o !! field with
  | Some (VStr s') => String.eqb s' s
  | _ => false
  end.

(** [xs.find(p) || null] *)
Definition find_or_null (p : record → bool) (xs : list record) : option record :=
  List.find p xs.

(** A record as the value of a field of another object. *)
Definition value_of_record (r : record) : value := VObj (map_to_list r).

(** [{...xs}] for an array: one property per index. *)
Fixpoint spread_array_from (i : nat) (xs : list record) : record :=
  match xs with
  | [] => ∅
  | x :: xs' => <[JS.index_key i := value_of_record x]> (spread_array_from (S i) xs')
  end.

(** [{...d}]: the own properties of what [readDataFile] returned. *)
Definition spread (d : document) : record :=
  match d with
  | DObject r => r
  | DArray xs => spread_array_from 0 xs
  end.

(** ** The service *)

Module DataService.

(** Read data from a specific JSON file. *)
Definition readDataFile (filename : string) : M document :=
  try_catch (fs_readFile_parse filename)
    (λ _, console_error ("Error reading " +:+ filename +:+ ":") ;;
          throw (Error ("Failed to read " +:+ filename))).

(** Write data to a specific JSON file. *)
Definition writeDataFile (filename : string) (data : document) : M unit :=
  try_catch (fs_writeFile filename data)
    (λ _, console_error ("Error writing " +:+ filename +:+ ":") ;;
          throw (Error ("Failed to write " +:+ filename))).

(** Generate a unique ID:
    [Date.now().toString(36) + Math.random().toString(36).substr(2)]. *)
Definition generateId : M string :=
  let* now := Date_now in
  let* rnd := Math_random_toString36 in
  ret (JS.toString36 now +:+ JS.substr 2 rnd).

(** *** Pages *)

Definition getPages : M document := readDataFile "pages.json".

Definition getPageBySlug (slug : string) : M (option record) :=
  let* pages := getPages in
  let* pages := array pages in
  ret (find_or_null (field_is "slug" slug) pages).

Definition getPageById (id : string) : M (option record) :=
  let* pages := getPages in
  let* pages := array pages in
  ret (find_or_null (field_is "id" id) pages).

Definition createPage (page : record) : M record :=
  let* pages := getPages in
  let* id := generateId in
  let* createdAt := new_Date_toISOString in
  let* updatedAt := new_Date_toISOString in
  let newPage :=
    <["updatedAt" := VStr updatedAt]>
      (<["createdAt" := VStr createdAt]> (<["id" := VStr id]> page)) in
  let* pages := array pages in
  writeDataFile "pages.json" (DArray (pages ++ [newPage])) ;;
  ret newPage.

Definition updatePage (id : string) (updates : record) : M (option record) :=
  let* pages := getPages in
  let* pages := array pages in
  let index := JS.findIndex (field_is "id" id) pages in
  if index =? -1 then ret None
  else
    let* updatedAt := new_Date_toISOString in
    let updatedPage :=
      <["updatedAt" := VStr updatedAt]>
        (updates ∪ default ∅ (pages !! Z.to_nat index)) in
    writeDataFile "pages.json" (DArray (<[Z.to_nat index := updatedPage]> pages)) ;;
    ret (Some updatedPage).

Definition deletePage (id : string) : M bool :=
  let* pages := getPages in
  let* pages := array pages in
  let filteredPages := List.filter (λ page, negb (field_is "id" id page)) pages in
  if (length filteredPages =? length pages)%nat then ret false
  else
    writeDataFile "pages.json" (DArray filteredPages) ;;
    ret true.

(** *** Blog posts *)

Definition getBlogPosts : M document := readDataFile "blog-posts.json".

Definition getBlogPostBySlug (slug : string) : M (option record) :=
  let* posts := getBlogPosts in
  let* posts := array posts in
  ret (find_or_null (field_is "slug" slug) posts).

Definition getBlogPostById (id : string) : M (option record) :=
  let* posts := getBlogPosts in
  let* posts := array posts in
  ret (find_or_null (field_is "id" id) posts).

Definition createBlogPost (post : record) : M record :=
  let* posts := getBlogPosts in
  let* id := generateId in
  let* publishedDate := new_Date_toISOString in
  let* updatedDate := new_Date_toISOString in
  let newPost :=
    <["likes" := VNum 0]>
      (<["views" := VNum 0]>
         (<["updatedDate" := VStr updatedDate]>
            (<["publishedDate" := VStr publishedDate]> (<["id" := VStr id]> post)))) in
  let* posts := array posts in
  writeDataFile "blog-posts.json" (DArray (posts ++ [newPost])) ;;
  ret newPost.

Definition updateBlogPost (id : string) (updates : record) : M (option record) :=
  let* posts := getBlogPosts in
  let* posts := array posts in
  let index := JS.findIndex (field_is "id" id) posts in
  if index =? -1 then ret None
  else
    let* updatedDate := new_Date_toISOString in
    let updatedPost :=
      <["updatedDate" := VStr updatedDate]>
        (updates ∪ default ∅ (posts !! Z.to_nat index)) in
    writeDataFile "blog-posts.json" (DArray (<[Z.to_nat index := updatedPost]> posts)) ;;
    ret (Some updatedPost).

Definition deleteBlogPost (id : string) : M bool :=
  let* posts := getBlogPosts in
  let* posts := array posts in
  let filteredPosts := List.filter (λ post, negb (field_is "id" id post)) posts in
  if (length filteredPosts =? length posts)%nat then ret false
  else
    writeDataFile "blog-posts.json" (DArray filteredPosts) ;;
    ret true.

(** *** Doctors *)

Definition getDoctors : M document := readDataFile "doctors.json".

Definition getDoctorBySlug (slug : string) : M (option record) :=
  let* doctors := getDoctors in
  let* doctors := array doctors in
  ret (find_or_null (field_is "slug" slug) doctors).

Definition getDoctorById (id : string) : M (option record) :=
  let* doctors := getDoctors in
  let* doctors := array doctors in
  ret (find_or_null (field_is "id" id) doctors).

Definition createDoctor (doctor : record) : M record :=
  let* doctors := getDoctors in
  let* id := generateId in
  let newDoctor := <["id" := VStr id]> doctor in
  let* doctors := array doctors in
  writeDataFile "doctors.json" (DArray (doctors ++ [newDoctor])) ;;
  ret newDoctor.

Definition updateDoctor (id : string) (updates : record) : M (option record) :=
  let* doctors := getDoctors in
  let* doctors := array doctors in
  let index := JS.findIndex (field_is "id" id) doctors in
  if index =? -1 then ret None
  else
    let updatedDoctor := updates ∪ default ∅ (doctors !! Z.to_nat index) in
    writeDataFile "doctors.json" (DArray (<[Z.to_nat index := updatedDoctor]> doctors)) ;;
    ret (Some updatedDoctor).

Definition deleteDoctor (id : string) : M bool :=
  let* doctors := getDoctors in
  let* doctors := array doctors in
  let filteredDoctors := List.filter (λ doctor, negb (field_is "id" id doctor)) doctors in
  if (length filteredDoctors =? length doctors)%nat then ret false
  else
    writeDataFile "doctors.json" (DArray filteredDoctors) ;;
    ret true.

(** *** Case studies *)

Definition getCases : M document := readDataFile "cases.json".

Definition getCaseBySlug (slug : string) : M (option record) :=
  let* cases := getCases in
  let* cases := array cases in
  ret (find_or_null (field_is "slug" slug) cases).

Definition getCaseById (id : string) : M (option record) :=
  let* cases := getCases in
  let* cases := array cases in
  ret (find_or_null (field_is "id" id) cases).

Definition createCase (caseStudy : record) : M record :=
  let* cases := getCases in
  let* id := generateId in
  let newCase := <["id" := VStr id]> caseStudy in
  let* cases := array cases in
  writeDataFile "cases.json" (DArray (cases ++ [newCase])) ;;
  ret newCase.

Definition updateCase (id : string) (updates : record) : M (option record) :=
  let* cases := getCases in
  let* cases := array cases in
  let index := JS.findIndex (field_is "id" id) cases in
  if index =? -1 then ret None
  else
    let updatedCase := updates ∪ default ∅ (cases !! Z.to_nat index) in
    writeDataFile "cases.json" (DArray (<[Z.to_nat index := updatedCase]> cases)) ;;
    ret (Some updatedCase).

Definition deleteCase (id : string) : M bool :=
  let* cases := getCases in
  let* cases := array cases in
  let filteredCases := List.filter (λ caseStudy, negb (field_is "id" id caseStudy)) cases in
  if (length filteredCases =? length cases)%nat then ret false
  else
    writeDataFile "cases.json" (DArray filteredCases) ;;
    ret true.

(** *** Singleton documents and read-only collections *)

Definition getSEOSettings : M document := readDataFile "seo-settings.json".

Definition updateSEOSettings (updates : record) : M record :=
  let* settings := getSEOSettings in
  let updatedSettings := updates ∪ spread settings in
  writeDataFile "seo-settings.json" (DObject updatedSettings) ;;
  ret updatedSettings.

Definition getServices : M document := readDataFile "services.json".
Definition getTestimonials : M document := readDataFile "testimonials.json".
Definition getAppointments : M document := readDataFile "appointments.json".
Definition getCategories : M document := readDataFile "categories.json".
Definition getContact : M document := readDataFile "contact.json".
Definition getSettings : M document := readDataFile "settings.json".
Definition getSkills : M document := readDataFile "skills.json".
Definition getArticles : M document := readDataFile "articles.json".

(** *** The aggregate *)

(** [Promise.all(ps)]: every operation of [ps] has been started when
    [Promise.all] is called, so each one runs whatever the others do; the
    promise resolves to all the results when all resolve, and rejects as
    soon as one rejects.  Which rejection it reports when several fail
    depends on timing; the embedding runs the operations in the order of
    the array and reports the first failure in that order. *)
Fixpoint Promise_all {A : Type} (ps : list (M A)) : M (list A) :=
  match ps with
  | [] => ret []
  | p :: ps' =>
      λ w, match p w with
           | (inl e, w') => (inl e, snd (Promise_all ps' w'))
           | (inr a, w') =>
               match Promise_all ps' w' with
               | (inl e, w'') => (inl e, w'')
               | (inr l, w'') => (inr (a :: l), w'')
               end
           end
  end.

(** The [Database] object: one property per collection of the aggregate. *)
Definition getAllData : M (gmap string document) :=
  let* results := Promise_all [getPages; getBlogPosts; getDoctors; getCases; getSEOSettings] in
  match results with
  | [pages; blogPosts; doctors; cases; seoSettings] =>
      ret (<["seo-settings" := seoSettings]>
             (<["cases" := cases]>
                (<["doctors" := doctors]>
                   (<["blog-posts" := blogPosts]>
                      (<["pages" := pages]> ∅)))))
  | _ => throw TypeError
  end.

End DataService.

Import DataService.

(** ** The store seen through the operations of the specification

    The specification speaks of one generic store with [getById],
    [getBySlug], [create], [update] and [delete] over a named collection.
    The service has one copy of each operation per collection; the four
    collections that have all of them are pages, blog posts, doctors and
    case studies. *)

Module Store.

Inductive collection : Type := Pages | BlogPosts | Doctors | Cases.

Definition filename (c : collection) : string :=
  match c with
  | Pages => "pages.json"
  | BlogPosts => "blog-posts.json"
  | Doctors => "doctors.json"
  | Cases => "cases.json"
  end.

Definition getBySlug (c : collection) : string → M (option record) :=
  match c with
  | Pages => getPageBySlug
  | BlogPosts => getBlogPostBySlug
  | Doctors => getDoctorBySlug
  | Cases => getCaseBySlug
  end.

Definition getById (c : collection) : string → M (option record) :=
  match c with
  | Pages => getPageById
  | BlogPosts => getBlogPostById
  | Doctors => getDoctorById
  | Cases => getCaseById
  end.

Definition create (c : collection) : record → M record :=
  match c with
  | Pages => createPage
  | BlogPosts => createBlogPost
  | Doctors => createDoctor
  | Cases => createCase
  end.

Definition update (c : collection) : string → record → M (option record) :=
  match c with
  | Pages => updatePage
  | BlogPosts => updateBlogPost
  | Doctors => updateDoctor
  | Cases => updateCase
  end.

Definition delete (c : collection) : string → M bool :=
  match c with
  | Pages => deletePage
  | BlogPosts => deleteBlogPost
  | Doctors => deleteDoctor
  | Cases => deleteCase
  end.

End Store.

Abbreviation collection := Store.collection.
Abbreviation filename := Store.filename.

(** ** The routing layer

    The handlers that [createApiRoutes] of [src/server.ts] registers, each
    one as the response it sends. *)

Module Server.

(** [ApiResponse<T>] of [src/types/index.ts]. *)
Record ApiResponse (T : Type) : Type := mkApiResponse {
  success : bool;
  data : option T;
  message : option string;
  error : option string
}.

Arguments mkApiResponse {T}.
Arguments success {T}.
Arguments data {T}.
Arguments message {T}.
Arguments error {T}.

(** What [res] has sent: the status code and the JSON body. *)
Record Response (T : Type) : Type := mkResponse {
  status : Z;
  body : ApiResponse T
}.

Arguments mkResponse {T}.
Arguments status {T}.
Arguments body {T}.

(** [{ success: true, data: d }] *)
Definition ok {T : Type} (d : T) : ApiResponse T :=
  mkApiResponse true (Some d) None None.

(** [{ success: false, error: e }] *)
Definition failed {T : Type} (e : string) : ApiResponse T :=
  mkApiResponse false None None (Some e).

(** [res.json(b)]: the status is 200 unless [res.status] has set it. *)
Definition res_json {T : Type} (b : ApiResponse T) : M (Response T) :=
  ret (mkResponse 200 b).

(** [res.status(code).json(b)] *)
Definition res_status_json {T : Type} (code : Z) (b : ApiResponse T) : M (Response T) :=
  ret (mkResponse code b).

(** *** The routes that send a whole file *)

Definition get_pages : M (Response document) :=
  try_catch
    (let* pages := getPages in
     res_json (ok pages))
    (λ _, res_status_json 500 (failed "Failed to fetch pages")).

Definition get_blog_posts : M (Response document) :=
  try_catch
    (let* posts := getBlogPosts in
     res_json (ok posts))
    (λ _, res_status_json 500 (failed "Failed to fetch blog posts")).

Definition get_doctors : M (Response document) :=
  try_catch
    (let* doctors := getDoctors in
     res_json (ok doctors))
    (λ _, res_status_json 500 (failed "Failed to fetch doctors")).

Definition get_cases : M (Response document) :=
  try_catch
    (let* cases := getCases in
     res_json (ok cases))
    (λ _, res_status_json 500 (failed "Failed to fetch cases")).

Definition get_seo_settings : M (Response document) :=
  try_catch
    (let* settings := getSEOSettings in
     res_json (ok settings))
    (λ _, res_status_json 500 (failed "Failed to fetch SEO settings")).

Definition get_services : M (Response document) :=
  try_catch
    (let* services := getServices in
     res_json (ok services))
    (λ _, res_status_json 500 (failed "Failed to fetch services")).

Definition get_testimonials : M (Response document) :=
  try_catch
    (let* testimonials := getTestimonials in
     res_json (ok testimonials))
    (λ _, res_status_json 500 (failed "Failed to fetch testimonials")).

Definition get_appointments : M (Response document) :=
  try_catch
    (let* appointments := getAppointments in
     res_json (ok appointments))
    (λ _, res_status_json 500 (failed "Failed to fetch appointments")).

Definition get_categories : M (Response document) :=
  try_catch
    (let* categories := getCategories in
     res_json (ok categories))
    (λ _, res_status_json 500 (failed "Failed to fetch categories")).

Definition get_contact : M (Response document) :=
  try_catch
    (let* contact := getContact in
     res_json (ok contact))
    (λ _, res_status_json 500 (failed "Failed to fetch contact information")).

Definition get_settings : M (Response document) :=
  try_catch
    (let* settings := getSettings in
     res_json (ok settings))
    (λ _, res_status_json 500 (failed "Failed to fetch settings")).

Definition get_skills : M (Response document) :=
  try_catch
    (let* skills := getSkills in
     res_json (ok skills))
    (λ _, res_status_json 500 (failed "Failed to fetch skills")).

Definition get_articles : M (Response document) :=
  try_catch
    (let* articles := getArticles in
     res_json (ok articles))
    (λ _, res_status_json 500 (failed "Failed to fetch articles")).

(** *** The routes that send one record, by slug *)

Definition get_page_by_slug (slug : string) : M (Response record) :=
  try_catch
    (let* page := getPageBySlug slug in
     match page with
     | None => res_status_json 404 (failed "Page not found")
     | Some page => res_json (ok page)
     end)
    (λ _, res_status_json 500 (failed "Failed to fetch page")).

Definition get_blog_post_by_slug (slug : string) : M (Response record) :=
  try_catch
    (let* post := getBlogPostBySlug slug in
     match post with
     | None => res_status_json 404 (failed "Blog post not found")
     | Some post => res_json (ok post)
     end)
    (λ _, res_status_json 500 (failed "Failed to fetch blog post")).

Definition get_doctor_by_slug (slug : string) : M (Response record) :=
  try_catch
    (let* doctor := getDoctorBySlug slug in
     match doctor with
     | None => res_status_json 404 (failed "Doctor not found")
     | Some doctor => res_json (ok doctor)
     end)
    (λ _, res_status_json 500 (failed "Failed to fetch doctor")).

Definition get_case_by_slug (slug : string) : M (Response record) :=
  try_catch
    (let* caseStudy := getCaseBySlug slug in
     match caseStudy with
     | None => res_status_json 404 (failed "Case not found")
     | Some caseStudy => res_json (ok caseStudy)
     end)
    (λ _, res_status_json 500 (failed "Failed to fetch case")).

(** The skills and the articles have no accessor by slug in the service:
    the handler searches the array itself. *)
Definition get_skill_by_slug (slug : string) : M (Response record) :=
  try_catch
    (let* skills := getSkills in
     let* skills := array skills in
     match List.find (field_is "slug" slug) skills with
     | None => res_status_json 404 (failed "Skill not found")
     | Some skill => res_json (ok skill)
     end)
    (λ _, res_status_json 500 (failed "Failed to fetch skill")).

Definition get_article_by_slug (slug : string) : M (Response record) :=
  try_catch
    (let* articles := getArticles in
     let* articles := array articles in
     match List.find (field_is "slug" slug) articles with
     | None => res_status_json 404 (failed "Article not found")
     | Some article => res_json (ok article)
     end)
    (λ _, res_status_json 500 (failed "Failed to fetch article")).

(** *** The routes, by name *)

Inductive list_route : Type :=
| Pages | BlogPosts | Doctors | Cases | SEOSettings | Services | Testimonials
| Appointments | Categories | Contact | Settings | Skills | Articles.

Definition list_handler (r : list_route) : M (Response document) :=
  match r with
  | Pages => get_pages
  | BlogPosts => get_blog_posts
  | Doctors => get_doctors
  | Cases => get_cases
  | SEOSettings => get_seo_settings
  | Services => get_services
  | Testimonials => get_testimonials
  | Appointments => get_appointments
  | Categories => get_categories
  | Contact => get_contact
  | Settings => get_settings
  | Skills => get_skills
  | Articles => get_articles
  end.

Definition list_file (r : list_route) : string :=
  match r with
  | Pages => "pages.json"
  | BlogPosts => "blog-posts.json"
  | Doctors => "doctors.json"
  | Cases => "cases.json"
  | SEOSettings => "seo-settings.json"
  | Services => "services.json"
  | Testimonials => "testimonials.json"
  | Appointments => "appointments.json"
  | Categories => "categories.json"
  | Contact => "contact.json"
  | Settings => "settings.json"
  | Skills => "skills.json"
  | Articles => "articles.json"
  end.

Definition list_error (r : list_route) : string :=
  match r with
  | Pages => "Failed to fetch pages"
  | BlogPosts => "Failed to fetch blog posts"
  | Doctors => "Failed to fetch doctors"
  | Cases => "Failed to fetch cases"
  | SEOSettings => "Failed to fetch SEO settings"
  | Services => "Failed to fetch services"
  | Testimonials => "Failed to fetch testimonials"
  | Appointments => "Failed to fetch appointments"
  | Categories => "Failed to fetch categories"
  | Contact => "Failed to fetch contact information"
  | Settings => "Failed to fetch settings"
  | Skills => "Failed to fetch skills"
  | Articles => "Failed to fetch articles"
  end.

Inductive slug_route : Type :=
| PageBySlug | BlogPostBySlug | DoctorBySlug | CaseBySlug | SkillBySlug | ArticleBySlug.

Definition slug_handler (r : slug_route) : string → M (Response record) :=
  match r with
  | PageBySlug => get_page_by_slug
  | BlogPostBySlug => get_blog_post_by_slug
  | DoctorBySlug => get_doctor_by_slug
  | CaseBySlug => get_case_by_slug
  | SkillBySlug => get_skill_by_slug
  | ArticleBySlug => get_article_by_slug
  end.

Definition slug_file (r : slug_route) : string :=
  match r with
  | PageBySlug => "pages.json"
  | BlogPostBySlug => "blog-posts.json"
  | DoctorBySlug => "doctors.json"
  | CaseBySlug => "cases.json"
  | SkillBySlug => "skills.json"
  | ArticleBySlug => "articles.json"
  end.

Definition slug_missing (r : slug_route) : string :=
  match r with
  | PageBySlug => "Page not found"
  | BlogPostBySlug => "Blog post not found"
  | DoctorBySlug => "Doctor not found"
  | CaseBySlug => "Case not found"
  | SkillBySlug => "Skill not found"
  | ArticleBySlug => "Article not found"
  end.

Definition slug_error (r : slug_route) : string :=
  match r with
  | PageBySlug => "Failed to fetch page"
  | BlogPostBySlug => "Failed to fetch blog post"
  | DoctorBySlug => "Failed to fetch doctor"
  | CaseBySlug => "Failed to fetch case"
  | SkillBySlug => "Failed to fetch skill"
  | ArticleBySlug => "Failed to fetch article"
  end.

End Server.

(** ** Vocabulary of the statements *)

(** The file of [c] reads and parses as the collection [rs]. *)
Definition stored (c : collection) (w : World) (rs : list record) : Prop :=
  disk w !! filename c = Some (Json (DArray rs)).

(** [fs.writeFile] accepts to write the file of [c]. *)
Definition writable (c : collection) (w : World) : Prop :=
  filename c ∉ readonly w.

(** The record [r] has the string [s] in its field [field]. *)
Definition has (field s : string) (r : record) : Prop :=
  r !! field = Some (VStr s).

(** No record of [rs] has [s] in its field [field]. *)
Definition absent (field s : string) (rs : list record) : Prop :=
  Forall (λ r, ¬ has field s r) rs.

(** The id that [generateId] gives in the world [w]. *)
Definition token (w : World) : string :=
  JS.toString36 (clock w 0) +:+ JS.substr 2 (random w 0).

(** The timestamp field that [update] sets: [updatedAt] on a page,
    [updatedDate] on a blog post, none on a doctor or a case study. *)
Definition update_stamp (c : collection) : option string :=
  match c with
  | Store.Pages => Some "updatedAt"
  | Store.BlogPosts => Some "updatedDate"
  | Store.Doctors | Store.Cases => None
  end.

(** What [update] makes of the record [r]: [{...r, ...updates}], with the
    timestamp field of the collection set to the reading [t] of the clock. *)
Definition updated (c : collection) (t : Z) (updates r : record) : record :=
  match update_stamp c with
  | Some field => <[field := VStr (JS.toISOString t)]> (updates ∪ r)
  | None => updates ∪ r
  end.

(** The record that [update] finds: the first one with the id. *)
Definition first_with_id (id : string) (rs pre : list record) (r : record)
    (post : list record) : Prop :=
  rs = pre ++ r :: post ∧ absent "id" id pre ∧ has "id" id r.

(** The record that [create] builds from [input] in the world [w]: the id is
    the token of [w]; on a page and on a blog post the two dates are the two
    readings of the clock that follow the one [generateId] takes. *)
Definition created (c : collection) (w : World) (input : record) : record :=
  match c with
  | Store.Pages =>
      <["updatedAt" := VStr (JS.toISOString (clock w 2))]>
        (<["createdAt" := VStr (JS.toISOString (clock w 1))]>
           (<["id" := VStr (token w)]> input))
  | Store.BlogPosts =>
      <["likes" := VNum 0]>
        (<["views" := VNum 0]>
           (<["updatedDate" := VStr (JS.toISOString (clock w 2))]>
              (<["publishedDate" := VStr (JS.toISOString (clock w 1))]>
                 (<["id" := VStr (token w)]> input))))
  | Store.Doctors | Store.Cases => <["id" := VStr (token w)]> input
  end.

(** The clock and the random source after one [create]. *)
Definition consumed (c : collection) (w : World) : World :=
  match c with
  | Store.Pages | Store.BlogPosts => tick (tick (draw (tick w)))
  | Store.Doctors | Store.Cases => draw (tick w)
  end.

(** A caller that creates the records of [inputs] one after the other, each
    call awaited before the next one starts. *)
Fixpoint create_all (c : collection) (inputs : list record) : M (list record) :=
  match inputs with
  | [] => ret []
  | input :: rest =>
      let* r := Store.create c input in
      let* rs := create_all c rest in
      ret (r :: rs)
  end.

(** The ids that [generateId] gives over [n] successive creations that start
    in the world [w]. *)
Fixpoint tokens (c : collection) (n : nat) (w : World) : list string :=
  match n with
  | O => []
  | S n' => token w :: tokens c n' (consumed c w)
  end.

(** The [id] fields of the records of a collection, in order. *)
Definition ids (rs : list record) : list (option value) :=
  (λ r : record, r !! "id") <$> rs.

(** The [id] field that carries the token [s]. *)
Definition id_of_token (s : string) : option value := Some (VStr s).

(** The files that [getAllData] reads. *)
Definition snapshot_files : list string :=
  ["pages.json"; "blog-posts.json"; "doctors.json"; "cases.json"; "seo-settings.json"].

(** The collection names that the routing layer serves, as the
    specification lists them. *)
Definition known_collections : list string :=
  ["pages"; "blog-posts"; "doctors"; "cases"; "services"; "testimonials";
   "appointments"; "categories"; "seo-settings"; "contact"; "settings";
   "skills"; "articles"].

(** The file [f] is missing, or does not parse. *)
Definition unreadable (w : World) (f : string) : Prop :=
  disk w !! f = None ∨ disk w !! f = Some Corrupt.

(** The fields that [create] sets itself in the collection [c]. *)
Definition managed (c : collection) : list string :=
  match c with
  | Store.Pages => ["id"; "createdAt"; "updatedAt"]
  | Store.BlogPosts => ["id"; "publishedDate"; "updatedDate"; "views"; "likes"]
  | Store.Doctors | Store.Cases => ["id"]
  end.

(** The operation [m] leaves every file as it is, whatever it returns. *)
Definition read_only {A : Type} (m : M A) : Prop :=
  ∀ w, disk (snd (m w)) = disk w.

(** The operation [m] leaves every file but [f] as it is, whatever it
    returns. *)
Definition confined (f : string) {A : Type} (m : M A) : Prop :=
  ∀ w g, g ≠ f → disk (snd (m w)) !! g = disk w !! g.

(** How an operation on the file [f] ends when the file cannot be read:
    the error of [readDataFile], after one line on the console. *)
Definition read_failure {A : Type} (f : string) (w : World) : (exn + A) * World :=
  (inl (Error ("Failed to read " +:+ f)), printed ("Error reading " +:+ f +:+ ":") w).

(** How a write to the file [f] ends when it is refused: the error of
    [writeDataFile], after one line on the console. *)
Definition write_failure {A : Type} (f : string) (w : World) : (exn + A) * World :=
  (inl (Error ("Failed to write " +:+ f)), printed ("Error writing " +:+ f +:+ ":") w).

(** A response in the shape the handlers give it: 200 with the data and no
    error, or 404 or 500 with an error text and no data; never a message. *)
Definition well_formed {T : Type} (resp : Server.Response T) : Prop :=
  Server.message (Server.body resp) = None ∧
  (Server.status resp = 200 ∧
   Server.success (Server.body resp) = true ∧
   is_Some (Server.data (Server.body resp)) ∧
   Server.error (Server.body resp) = None
   ∨
   (Server.status resp = 404 ∨ Server.status resp = 500) ∧
   Server.success (Server.body resp) = false ∧
   Server.data (Server.body resp) = None ∧
   is_Some (Server.error (Server.body resp))).

(** The handler [m] sends a well-formed response in the world [w] and
    leaves the files as they are. *)
Definition answers_well {T : Type} (m : M (Server.Response T)) (w : World) : Prop :=
  ∃ resp w', m w = (inr resp, w') ∧ well_formed resp ∧ disk w' = disk w.

(** ** Sample data *)

Definition page_home : record :=
  <["id" := VStr "1"]>
    (<["slug" := VStr "home"]>
       (<["title" := VStr "Home"]>
          (<["createdAt" := VStr "2024-01-01T00:00:00.000Z"]>
             (<["updatedAt" := VStr "2024-01-01T00:00:00.000Z"]> ∅)))).

Definition page_about : record :=
  <["id" := VStr "2"]>
    (<["slug" := VStr "about"]>
       (<["title" := VStr "About"]>
          (<["createdAt" := VStr "2024-02-01T00:00:00.000Z"]>
             (<["updatedAt" := VStr "2024-02-01T00:00:00.000Z"]> ∅)))).

Definition page_contact : record :=
  <["slug" := VStr "contact"]> (<["title" := VStr "Contact"]> ∅).

(** A page whose id is the one that [generateId] gives in the sample world. *)
Definition page_clash : record :=
  <["id" := VStr "loyw3v284fzyo82mvyr"]> (<["title" := VStr "Old"]> ∅).

(** The example of the specification, on a doctor: [{a:1, b:2}] updated with
    [{b:3}] is [{a:1, b:3}]. *)
Definition doctor_ab (a b : Z) : record :=
  <["id" := VStr "d1"]> (<["a" := VNum a]> (<["b" := VNum b]> ∅)).

(** A caller that sends its own counters and dates. *)
Definition post_with_counters : record :=
  <["title" := VStr "Spine care"]>
    (<["views" := VNum 1000]>
       (<["likes" := VNum 500]>
          (<["publishedDate" := VStr "2000-01-01T00:00:00.000Z"]> ∅))).

Definition doctor_a : record :=
  <["name" := VStr "Dr. A"]> (<["slug" := VStr "dr-a"]> ∅).

(** The scenario of the specification on the doctors: create, list, get by
    slug, update the name, delete, list. *)
Definition doctors_scenario
  : M (record * document * option record * option record * bool * document) :=
  let* r := createDoctor doctor_a in
  let id := match r !! "id" with Some (VStr s) => s | _ => "" end in
  let* listed := getDoctors in
  let* found := getDoctorBySlug "dr-a" in
  let* changed := updateDoctor id (<["name" := VStr "Dr. A Jr."]> ∅) in
  let* removed := deleteDoctor id in
  let* left := getDoctors in
  ret (r, listed, found, changed, removed, left).

(** The five files of the aggregate, with empty collections. *)
Definition sample_disk : gmap string file :=
  <["pages.json" := Json (DArray [])]>
    (<["blog-posts.json" := Json (DArray [])]>
       (<["doctors.json" := Json (DArray [])]>
          (<["cases.json" := Json (DArray [])]>
             (<["seo-settings.json" := Json (DObject ∅)]> ∅)))).

(** A world to run the service in: [rs] in the file of the collection [c],
    the other collections empty, every file writable, a clock that advances
    by one millisecond per reading, starting at 2023-11-14T22:13:20.000Z,
    and a random source that draws the same number every time. *)
Definition sample_world (c : collection) (rs : list record) : World :=
  mkWorld
    (<[filename c := Json (DArray rs)]> sample_disk)
    ∅
    (λ n, 1700000000000 + Z.of_nat n)
    (λ _, "0.4fzyo82mvyr")
    [].

(** The sample world with a clock that stands still: every reading falls in
    the same millisecond. *)
Definition frozen_world (c : collection) (rs : list record) : World :=
  mkWorld (disk (sample_world c rs)) ∅ (λ _, 1700000000000)
          (λ _, "0.4fzyo82mvyr") [].

(** The sample world with the file of the doctors damaged. *)
Definition damaged_world : World :=
  mkWorld (<["doctors.json" := Corrupt]> sample_disk) ∅
          (λ n, 1700000000000 + Z.of_nat n) (λ _, "0.4fzyo82mvyr") [].

(** The sample world with the file of the collection [c] refused by
    [fs.writeFile]. *)
Definition locked_world (c : collection) (rs : list record) : World :=
  mkWorld (disk (sample_world c rs)) {[filename c]}
          (λ n, 1700000000000 + Z.of_nat n) (λ _, "0.4fzyo82mvyr") [].

(** The sample world with an object where the pages should be. *)
Definition misshapen_world : World :=
  mkWorld (<["pages.json" := Json (DObject page_home)]> sample_disk) ∅
          (λ n, 1700000000000 + Z.of_nat n) (λ _, "0.4fzyo82mvyr") [].

Definition seo_settings : record :=
  <["id" := VStr "seo"]> (<["siteName" := VStr "Clinic"]> ∅).

(** The sample world with settings in [seo-settings.json]. *)
Definition seo_world : World :=
  mkWorld (<["seo-settings.json" := Json (DObject seo_settings)]> sample_disk) ∅
          (λ n, 1700000000000 + Z.of_nat n) (λ _, "0.4fzyo82mvyr") [].

Definition skill_surgery : record :=
  <["id" := VStr "s1"]> (<["slug" := VStr "spine-surgery"]> ∅).

(** The sample world with one skill in [skills.json]. *)
Definition skills_world : World :=
  mkWorld (<["skills.json" := Json (DArray [skill_surgery])]> sample_disk) ∅
          (λ n, 1700000000000 + Z.of_nat n) (λ _, "0.4fzyo82mvyr") [].

(** A world in which every file of the data directory is in place. *)
Definition full_world : World :=
  mkWorld
    (<["services.json" := Json (DArray [])]>
       (<["testimonials.json" := Json (DArray [])]>
          (<["appointments.json" := Json (DArray [])]>
             (<["categories.json" := Json (DArray [])]>
                (<["contact.json" := Json (DObject ∅)]>
                   (<["settings.json" := Json (DObject ∅)]>
                      (<["skills.json" := Json (DArray [])]>
                         (<["articles.json" := Json (DArray [])]> sample_disk))))))))
    ∅ (λ n, 1700000000000 + Z.of_nat n) (λ _, "0.4fzyo82mvyr") [].

(** ** The built-ins on examples *)

Example toString36_examples :
  JS.toString36 0 = "0" ∧ JS.toString36 35 = "z" ∧ JS.toString36 36 = "10" ∧
  JS.toString36 1700000000000 = "loyw3v28".
Proof. repeat split; reflexivity. Qed.

Example toISOString_examples :
  JS.toISOString 0 = "1970-01-01T00:00:00.000Z" ∧
  JS.toISOString (-1) = "1969-12-31T23:59:59.999Z" ∧
  JS.toISOString 951782399000 = "2000-02-28T23:59:59.000Z" ∧
  JS.toISOString 1709210096789 = "2024-02-29T12:34:56.789Z".
Proof. repeat split; vm_compute; reflexivity. Qed.

Example substr_examples :
  JS.substr 2 "0.4fzyo82mvyr" = "4fzyo82mvyr" ∧ JS.substr 2 "0" = "".
Proof. split; reflexivity. Qed.

Example findIndex_examples :
  JS.findIndex (Z.eqb 3) [1; 2; 3; 3] = 2 ∧ JS.findIndex (Z.eqb 5) [1; 2; 3] = -1.
Proof. split; reflexivity. Qed.

(** ** The scenario of the specification *)

Example doctors_scenario_runs :
  let r := <["id" := VStr "loyw3v284fzyo82mvyr"]> doctor_a in
  fst (doctors_scenario (sample_world Store.Doctors [])) =
    inr (r, DArray [r], Some r,
         Some (<["name" := VStr "Dr. A Jr."]> r), true, DArray []).
Proof. vm_compute. reflexivity. Qed.

Example doctors_scenario_trace :
  trace (snd (doctors_scenario (sample_world Store.Doctors []))) =
    [Wrote "doctors.json"; Wrote "doctors.json"; Wrote "doctors.json"].
Proof. reflexivity. Qed.

(** ** Running the primitives *)

Lemma generateId_token w : generateId w = (inr (token w), draw (tick w)).
Proof. reflexivity. Qed.


Section Running.

Context {B : Type}.
Implicit Types (w : World) (f : string) (d : document).

Lemma bind_ret {A : Type} (a : A) (k : A → M B) w : bind (ret a) k w = k a w.
Proof. reflexivity. Qed.

Lemma bind_readDataFile f d (k : document → M B) w :
  disk w !! f = Some (Json d) →
  bind (readDataFile f) k w = k d w.
Proof.
  intros Hf. unfold bind, readDataFile, try_catch, fs_readFile_parse.
  by rewrite Hf.
Qed.

Lemma bind_writeDataFile f d (k : unit → M B) w :
  f ∉ readonly w →
  bind (writeDataFile f d) k w = k tt (written f d w).
Proof.
  intros Hf. unfold bind, writeDataFile, try_catch, fs_writeFile.
  by destruct (decide (f ∈ readonly w)).
Qed.

Lemma bind_new_Date (k : string → M B) w :
  bind new_Date_toISOString k w = k (JS.toISOString (clock w 0)) (tick w).
Proof. reflexivity. Qed.

Lemma bind_generateId (k : string → M B) w :
  bind generateId k w = k (token w) (draw (tick w)).
Proof. reflexivity. Qed.

End Running.

Lemma field_is_has field s r : field_is field s r = true ↔ has field s r.
Proof.
  unfold field_is, has. destruct (r !! field) as [[]|]; try (split; [done | congruence]).
  rewrite String.eqb_eq. split; congruence.
Qed.

Lemma field_is_absent field s r : field_is field s r = false ↔ ¬ has field s r.
Proof. rewrite <- field_is_has. by destruct (field_is field s r). Qed.

Lemma find_absent field s rs :
  absent field s rs → find_or_null (field_is field s) rs = None.
Proof.
  unfold find_or_null. induction 1 as [|r rs Hr _ IH]; simpl; [done|].
  apply field_is_absent in Hr. by rewrite Hr.
Qed.

Lemma filter_absent field s rs :
  absent field s rs → List.filter (λ r, negb (field_is field s r)) rs = rs.
Proof.
  induction 1 as [|r rs Hr _ IH]; simpl; [done|].
  apply field_is_absent in Hr. rewrite Hr. simpl. by rewrite IH.
Qed.

Lemma findIndex_from_absent field s rs i :
  absent field s rs → JS.findIndex_from (field_is field s) rs i = -1.
Proof.
  intros H. revert i. induction H as [|r rs Hr _ IH]; intros i; simpl; [done|].
  apply field_is_absent in Hr. by rewrite Hr.
Qed.

Lemma findIndex_from_found field s pre r post i :
  absent field s pre → has field s r →
  JS.findIndex_from (field_is field s) (pre ++ r :: post) i = i + Z.of_nat (length pre).
Proof.
  intros H Hr. revert i. induction H as [|x pre Hx _ IH]; intros i; simpl.
  - apply field_is_has in Hr. rewrite Hr. lia.
  - apply field_is_absent in Hx. rewrite Hx, IH. lia.
Qed.

(** Steps through an operation whose file is readable and writable. *)
Ltac run_store :=
  repeat first
    [ progress cbn [array]
    | rewrite bind_ret
    | rewrite bind_new_Date
    | rewrite bind_generateId
    | erewrite bind_readDataFile by eassumption
    | rewrite bind_writeDataFile by assumption ].

(** Opens the operation of the collection at hand. *)
Ltac open_store :=
  cbn [Store.getById Store.getBySlug Store.create Store.update Store.delete
       Store.filename] in *;
  unfold getPageById, getBlogPostById, getDoctorById, getCaseById,
         getPageBySlug, getBlogPostBySlug, getDoctorBySlug, getCaseBySlug,
         createPage, createBlogPost, createDoctor, createCase,
         updatePage, updateBlogPost, updateDoctor, updateCase,
         deletePage, deleteBlogPost, deleteDoctor, deleteCase,
         getPages, getBlogPosts, getDoctors, getCases in *.

(** ** Not-found outcomes *)

Lemma getById_absent (c : collection) w rs id :
  stored c w rs → absent "id" id rs → Store.getById c id w = (inr None, w).
Proof.
  unfold stored. intros Hrs Habs.
  destruct c; open_store; run_store; by rewrite find_absent.
Qed.

Lemma getBySlug_absent (c : collection) w rs slug :
  stored c w rs → absent "slug" slug rs → Store.getBySlug c slug w = (inr None, w).
Proof.
  unfold stored. intros Hrs Habs.
  destruct c; open_store; run_store; by rewrite find_absent.
Qed.

Lemma delete_absent (c : collection) w rs id :
  stored c w rs → absent "id" id rs → Store.delete c id w = (inr false, w).
Proof.
  unfold stored. intros Hrs Habs.
  destruct c; open_store; run_store;
    rewrite filter_absent by done; by rewrite Nat.eqb_refl.
Qed.

Lemma filter_length_le (p : record → bool) rs :
  (length (List.filter p rs) ≤ length rs)%nat.
Proof. induction rs as [|r rs IH]; simpl; [lia|]. destruct (p r); simpl; lia. Qed.

Lemma filter_present_shorter field s rs :
  Exists (has field s) rs →
  (length (List.filter (λ r, negb (field_is field s r)) rs) < length rs)%nat.
Proof.
  induction 1 as [r rs Hr|r rs _ IH]; simpl.
  - apply field_is_has in Hr. rewrite Hr. simpl.
    pose proof (filter_length_le (λ r, negb (field_is field s r)) rs). lia.
  - destruct (negb (field_is field s r)); simpl; lia.
Qed.

Lemma filter_leaves_absent field s rs :
  absent field s (List.filter (λ r, negb (field_is field s r)) rs).
Proof.
  unfold absent. induction rs as [|r rs IH]; simpl; [constructor|].
  destruct (field_is field s r) eqn:Hr; simpl; [done|].
  constructor; [by apply field_is_absent | done].
Qed.

Lemma delete_present (c : collection) w rs id :
  stored c w rs → writable c w → Exists (has "id" id) rs →
  Store.delete c id w =
    (inr true,
     written (filename c)
       (DArray (List.filter (λ r, negb (field_is "id" id r)) rs)) w).
Proof.
  unfold stored, writable. intros Hrs Hw Hex.
  apply filter_present_shorter in Hex.
  destruct c; open_store; run_store;
    (destruct (Nat.eqb_spec
       (length (List.filter (λ r, negb (field_is "id" id r)) rs)) (length rs));
     [lia|]); by run_store.
Qed.

Lemma stored_written (c : collection) rs w : stored c (written (filename c) (DArray rs) w) rs.
Proof. unfold stored, written. simpl. apply lookup_insert_eq. Qed.

(** C7. Not-found is not an error: when the file of the collection reads and
    parses as the collection, [getById] and [delete] on an id that no record
    has, and [getBySlug] on a slug that no record has, return the not-found
    outcome ([null], [false]); no failure is raised and the world is left as
    it was. *)
Theorem not_found_is_not_an_error (c : collection) (w : World)
    (rs : list record) (key : string) :
  stored c w rs →
  (absent "id" key rs → Store.getById c key w = (inr None, w)) ∧
  (absent "slug" key rs → Store.getBySlug c key w = (inr None, w)) ∧
  (absent "id" key rs → Store.delete c key w = (inr false, w)).
Proof.
  intros Hrs. repeat split; intros Habs.
  - by apply getById_absent with rs.
  - by apply getBySlug_absent with rs.
  - by apply delete_absent with rs.
Qed.

Ltac absent_by_computation :=
  unfold absent; repeat constructor; unfold has; vm_compute; discriminate.

Lemma not_found_is_not_an_error_witness :
  let rs := [page_home; page_about] in
  let w := sample_world Store.Pages rs in
  stored Store.Pages w rs ∧ absent "id" "3" rs ∧ absent "slug" "contact" rs ∧
  Store.getById Store.Pages "3" w = (inr None, w) ∧
  Store.getBySlug Store.Pages "contact" w = (inr None, w) ∧
  Store.delete Store.Pages "3" w = (inr false, w).
Proof.
  intros rs w.
  assert (Hrs : stored Store.Pages w rs) by reflexivity.
  assert (Hid : absent "id" "3" rs) by absent_by_computation.
  assert (Hslug : absent "slug" "contact" rs) by absent_by_computation.
  destruct (not_found_is_not_an_error Store.Pages w rs "3" Hrs) as (Hget & _ & Hdel).
  destruct (not_found_is_not_an_error Store.Pages w rs "contact" Hrs) as (_ & Hfind & _).
  do 3 (split; [assumption|]).
  split; [exact (Hget Hid)|]. split; [exact (Hfind Hslug) | exact (Hdel Hid)].
Defined.

(** C8. Update on an absent id: when no record of the collection has the
    given id, [update] returns the not-found outcome and leaves the world as
    it was: nothing is written, the stored collection is the same, the clock
    is not even read. *)
Theorem update_absent_has_no_effect (c : collection) (w : World)
    (rs : list record) (id : string) (updates : record) :
  stored c w rs → absent "id" id rs →
  Store.update c id updates w = (inr None, w).
Proof.
  unfold stored. intros Hrs Habs.
  destruct c; open_store; run_store;
    unfold JS.findIndex; by rewrite findIndex_from_absent.
Qed.

Lemma update_absent_has_no_effect_witness :
  let rs := [page_home; page_about] in
  let w := sample_world Store.Pages rs in
  stored Store.Pages w rs ∧ absent "id" "3" rs ∧
  Store.update Store.Pages "3" (<["title" := VStr "Contact"]> ∅) w = (inr None, w).
Proof.
  intros rs w.
  assert (Hrs : stored Store.Pages w rs) by reflexivity.
  assert (Hid : absent "id" "3" rs) by absent_by_computation.
  do 2 (split; [assumption|]).
  exact (update_absent_has_no_effect Store.Pages w rs "3" _ Hrs Hid).
Defined.

(** C9. Delete is idempotent in effect: deleting an id that no record has
    returns [false]; deleting an id that some record has returns [true], and
    deleting it again right after returns [false].  (The file of the
    collection is readable and writable.) *)
Theorem delete_is_idempotent_in_effect (c : collection) (w : World)
    (rs : list record) (id : string) :
  stored c w rs → writable c w →
  (absent "id" id rs → Store.delete c id w = (inr false, w)) ∧
  (Exists (has "id" id) rs →
   ∃ w1, Store.delete c id w = (inr true, w1) ∧
         Store.delete c id w1 = (inr false, w1)).
Proof.
  intros Hrs Hw. split.
  - intros Habs. by apply delete_absent with rs.
  - intros Hex. eexists. split.
    + by apply delete_present.
    + eapply delete_absent; [apply stored_written | apply filter_leaves_absent].
Qed.

Lemma delete_is_idempotent_in_effect_witness :
  let rs := [page_home; page_about] in
  let w := sample_world Store.Pages rs in
  stored Store.Pages w rs ∧ writable Store.Pages w ∧
  absent "id" "3" rs ∧ Exists (has "id" "2") rs ∧
  Store.delete Store.Pages "3" w = (inr false, w) ∧
  ∃ w1, Store.delete Store.Pages "2" w = (inr true, w1) ∧
        Store.delete Store.Pages "2" w1 = (inr false, w1).
Proof.
  intros rs w.
  assert (Hrs : stored Store.Pages w rs) by reflexivity.
  assert (Hw : writable Store.Pages w) by (unfold writable; simpl; set_solver).
  assert (Hno : absent "id" "3" rs) by absent_by_computation.
  assert (Hyes : Exists (has "id" "2") rs) by (right; left; reflexivity).
  do 4 (split; [assumption|]). split.
  - by apply (delete_is_idempotent_in_effect Store.Pages w rs "3" Hrs Hw).
  - by apply (delete_is_idempotent_in_effect Store.Pages w rs "2" Hrs Hw).
Defined.

(** ** Update of an existing record *)

Lemma update_present (c : collection) w rs pre r post id updates :
  stored c w rs → writable c w → first_with_id id rs pre r post →
  let r' := updated c (clock w 0) updates r in
  Store.update c id updates w =
    (inr (Some r'),
     written (filename c) (DArray (pre ++ r' :: post))
       (match update_stamp c with Some _ => tick w | None => w end)).
Proof.
  unfold stored, writable. intros Hrs Hw (-> & Habs & Hr).
  assert (Hlen : (length pre ≤ length pre)%nat) by lia.
  destruct c; open_store; run_store; unfold JS.findIndex;
    rewrite findIndex_from_found by done;
    rewrite Z.add_0_l; (destruct (Z.eqb_spec (Z.of_nat (length pre)) (-1)); [lia|]);
    rewrite Nat2Z.id, list_lookup_middle by done;
    cbn [from_option]; unfold Datatypes.id; run_store;
    rewrite (insert_app_r_alt _ _ _ _ Hlen), Nat.sub_diag; reflexivity.
Qed.

Lemma updated_lookup (c : collection) t updates r field :
  update_stamp c ≠ Some field →
  updated c t updates r !! field =
    match updates !! field with Some v => Some v | None => r !! field end.
Proof.
  intros Hne. unfold updated.
  destruct (update_stamp c) as [stamp|].
  - rewrite lookup_insert_ne by congruence. rewrite lookup_union.
    by destruct (updates !! field), (r !! field).
  - rewrite lookup_union. by destruct (updates !! field), (r !! field).
Qed.

Lemma updated_stamp (c : collection) t updates r field :
  update_stamp c = Some field →
  updated c t updates r !! field = Some (VStr (JS.toISOString t)).
Proof. intros Hc. unfold updated. rewrite Hc. apply lookup_insert_eq. Qed.

Lemma update_stamp_not_identity (c : collection) :
  update_stamp c ≠ Some "id" ∧ update_stamp c ≠ Some "createdAt".
Proof. by destruct c. Qed.

(** C1, as the code has it.  [update] on an existing record, in a collection
    whose file is readable and writable:
    - on a page it sets [updatedAt], on a blog post [updatedDate], to the
      reading of the clock taken during the update; on a doctor or a case
      study it sets no timestamp and the result is the plain merge;
    - the [id] and the [createdAt] of the result are those of the prior
      record when the payload has no value for them, and the payload's
      values when it has: the payload is merged over the record, these two
      fields included. *)
Theorem update_timestamp_and_identity (c : collection) (w : World)
    (rs pre : list record) (r : record) (post : list record)
    (id : string) (updates : record) :
  stored c w rs → writable c w → first_with_id id rs pre r post →
  ∃ r' w',
    Store.update c id updates w = (inr (Some r'), w') ∧
    (∀ field, update_stamp c = Some field →
              r' !! field = Some (VStr (JS.toISOString (clock w 0)))) ∧
    (update_stamp c = None → r' = updates ∪ r) ∧
    (updates !! "id" = None → r' !! "id" = r !! "id") ∧
    (updates !! "createdAt" = None → r' !! "createdAt" = r !! "createdAt") ∧
    (∀ v, updates !! "id" = Some v → r' !! "id" = Some v) ∧
    (∀ v, updates !! "createdAt" = Some v → r' !! "createdAt" = Some v).
Proof.
  intros Hrs Hw Hfirst.
  destruct (update_stamp_not_identity c) as [Hid Hcreated].
  eexists _, _. split; [by eapply update_present|].
  split; [intros field Hc; by apply updated_stamp|].
  split; [intros Hc; unfold updated; by rewrite Hc|].
  repeat split.
  - intros Hu. by rewrite updated_lookup, Hu.
  - intros Hu. by rewrite updated_lookup, Hu.
  - intros v Hu. by rewrite updated_lookup, Hu.
  - intros v Hu. by rewrite updated_lookup, Hu.
Qed.

Lemma update_timestamp_and_identity_witness :
  let rs := [page_home; page_about] in
  let w := sample_world Store.Pages rs in
  let updates : record := <["title" := VStr "About us"]> ∅ in
  stored Store.Pages w rs ∧ writable Store.Pages w ∧
  first_with_id "2" rs [page_home] page_about [] ∧
  ∃ r' w',
    Store.update Store.Pages "2" updates w = (inr (Some r'), w') ∧
    r' !! "updatedAt" = Some (VStr "2023-11-14T22:13:20.000Z") ∧
    r' !! "id" = Some (VStr "2") ∧
    r' !! "createdAt" = Some (VStr "2024-02-01T00:00:00.000Z").
Proof.
  intros rs w updates.
  assert (Hrs : stored Store.Pages w rs) by reflexivity.
  assert (Hw : writable Store.Pages w) by (unfold writable; simpl; set_solver).
  assert (Hfirst : first_with_id "2" rs [page_home] page_about []).
  { split; [reflexivity|]. split; [absent_by_computation | reflexivity]. }
  do 3 (split; [assumption|]).
  destruct (update_timestamp_and_identity Store.Pages w rs [page_home] page_about []
              "2" updates Hrs Hw Hfirst)
    as (r' & w' & Hrun & Hstamp & _ & Hid & Hcreated & _).
  exists r', w'. split; [exact Hrun|].
  split; [exact (Hstamp "updatedAt" eq_refl)|].
  split; [exact (Hid eq_refl) | exact (Hcreated eq_refl)].
Defined.

(** C1 as stated fails: a payload that has an [id] and a [createdAt] moves
    both fields of the page to the payload's values. *)
Lemma update_keeps_identity_counterexample :
  let rs := [page_home; page_about] in
  let w := sample_world Store.Pages rs in
  let updates : record :=
    <["id" := VStr "9"]> (<["createdAt" := VStr "1999-12-31T00:00:00.000Z"]> ∅) in
  first_with_id "1" rs [] page_home [page_about] ∧
  ∃ r', fst (Store.update Store.Pages "1" updates w) = inr (Some r') ∧
        r' !! "id" ≠ page_home !! "id" ∧
        r' !! "createdAt" ≠ page_home !! "createdAt".
Proof.
  intros rs w updates.
  assert (Hfirst : first_with_id "1" rs [] page_home [page_about]).
  { split; [reflexivity|]. split; [constructor | reflexivity]. }
  split; [exact Hfirst|].
  eexists. split.
  - erewrite update_present; [reflexivity | reflexivity | | exact Hfirst].
    unfold writable; simpl; set_solver.
  - split; vm_compute; discriminate.
Qed.

(** ** Merge semantics *)

(** C3, as the code has it.  [update] merges: in the record it returns, a
    field that the payload does not have keeps the value of the prior
    record, and a field that the payload has takes the payload's value;
    this for every field but the timestamp that [update] sets itself
    ([updatedAt] on a page, [updatedDate] on a blog post). *)
Theorem update_merges (c : collection) (w : World)
    (rs pre : list record) (r : record) (post : list record)
    (id : string) (updates : record) :
  stored c w rs → writable c w → first_with_id id rs pre r post →
  ∃ r' w',
    Store.update c id updates w = (inr (Some r'), w') ∧
    (∀ field, updates !! field = None → update_stamp c ≠ Some field →
              r' !! field = r !! field) ∧
    (∀ field v, updates !! field = Some v → update_stamp c ≠ Some field →
                r' !! field = Some v).
Proof.
  intros Hrs Hw Hfirst.
  eexists _, _. split; [by eapply update_present|].
  split.
  - intros field Hu Hne. by rewrite updated_lookup, Hu.
  - intros field v Hu Hne. by rewrite updated_lookup, Hu.
Qed.

Lemma update_merges_witness :
  let rs := [doctor_ab 1 2] in
  let w := sample_world Store.Doctors rs in
  let updates : record := <["b" := VNum 3]> ∅ in
  stored Store.Doctors w rs ∧ writable Store.Doctors w ∧
  first_with_id "d1" rs [] (doctor_ab 1 2) [] ∧
  ∃ r' w',
    Store.update Store.Doctors "d1" updates w = (inr (Some r'), w') ∧
    r' !! "a" = Some (VNum 1) ∧ r' !! "b" = Some (VNum 3) ∧
    r' !! "id" = Some (VStr "d1").
Proof.
  intros rs w updates.
  assert (Hrs : stored Store.Doctors w rs) by reflexivity.
  assert (Hw : writable Store.Doctors w) by (unfold writable; simpl; set_solver).
  assert (Hfirst : first_with_id "d1" rs [] (doctor_ab 1 2) []).
  { split; [reflexivity|]. split; [constructor | reflexivity]. }
  do 3 (split; [assumption|]).
  destruct (update_merges Store.Doctors w rs [] (doctor_ab 1 2) [] "d1" updates
              Hrs Hw Hfirst)
    as (r' & w' & Hrun & Hkeep & Htake).
  exists r', w'. split; [exact Hrun|].
  split; [exact (Hkeep "a" eq_refl ltac:(discriminate))|].
  split; [exact (Htake "b" _ eq_refl ltac:(discriminate))|].
  exact (Hkeep "id" eq_refl ltac:(discriminate)).
Defined.

Example update_doctor_example :
  fst (updateDoctor "d1" (<["b" := VNum 3]> ∅)
         (sample_world Store.Doctors [doctor_ab 1 2]))
  = inr (Some (doctor_ab 1 3)).
Proof. vm_compute. reflexivity. Qed.

(** C3 as stated fails on a page: [updatedAt] is not in the payload and does
    not keep its value. *)
Lemma update_keeps_absent_fields_counterexample :
  let rs := [page_home; page_about] in
  let w := sample_world Store.Pages rs in
  let updates : record := <["title" := VStr "Welcome"]> ∅ in
  first_with_id "1" rs [] page_home [page_about] ∧
  ∃ r', fst (Store.update Store.Pages "1" updates w) = inr (Some r') ∧
        ¬ (∀ field, updates !! field = None → r' !! field = page_home !! field).
Proof.
  intros rs w updates.
  assert (Hfirst : first_with_id "1" rs [] page_home [page_about]).
  { split; [reflexivity|]. split; [constructor | reflexivity]. }
  split; [exact Hfirst|].
  eexists. split.
  - erewrite update_present; [reflexivity | reflexivity | | exact Hfirst].
    unfold writable; simpl; set_solver.
  - intros Hkeep. specialize (Hkeep "updatedAt" eq_refl).
    vm_compute in Hkeep. discriminate.
Qed.

(** ** Creation *)

Lemma create_runs (c : collection) w rs input :
  stored c w rs → writable c w →
  Store.create c input w =
    (inr (created c w input),
     written (filename c) (DArray (rs ++ [created c w input])) (consumed c w)).
Proof.
  unfold stored, writable. intros Hrs Hw.
  destruct c; open_store; run_store; reflexivity.
Qed.

Lemma readDataFile_inv f w d w' :
  readDataFile f w = (inr d, w') → disk w !! f = Some (Json d) ∧ w' = w.
Proof.
  unfold readDataFile, try_catch, fs_readFile_parse.
  destruct (disk w !! f) as [[|d0]|]; cbn; intros H; inversion H; auto.
Qed.

Lemma writeDataFile_inv f d w w' :
  writeDataFile f d w = (inr tt, w') → f ∉ readonly w.
Proof.
  unfold writeDataFile, try_catch, fs_writeFile.
  destruct (decide (f ∈ readonly w)); cbn; intros H; [inversion H | done].
Qed.

(** A create that succeeds has read the collection and written it. *)
Lemma create_success (c : collection) w input r w' :
  Store.create c input w = (inr r, w') →
  ∃ rs, stored c w rs ∧ writable c w.
Proof.
  unfold stored, writable. intros Hrun.
  destruct (disk w !! filename c) as [[|[rs|o]]|] eqn:Hd.
  - exfalso. destruct c; open_store;
      unfold bind, readDataFile, try_catch, fs_readFile_parse in Hrun;
      rewrite Hd in Hrun; cbn in Hrun; discriminate.
  - exists rs. split; [done|].
    destruct (decide (filename c ∈ readonly w)) as [Hro|]; [exfalso | done].
    destruct c; open_store; revert Hrun; run_store;
      unfold bind, writeDataFile, try_catch, fs_writeFile; cbn;
      (destruct (decide (_ ∈ readonly w)); [cbn; discriminate | done]).
  - exfalso. destruct c; open_store; revert Hrun; run_store; cbn; discriminate.
  - exfalso. destruct c; open_store;
      unfold bind, readDataFile, try_catch, fs_readFile_parse in Hrun;
      rewrite Hd in Hrun; cbn in Hrun; discriminate.
Qed.

Lemma created_id (c : collection) w input : has "id" (token w) (created c w input).
Proof. unfold has. destruct c; cbn [created]; by simplify_map_eq. Qed.

Lemma find_last_absent field s rs r :
  absent field s rs → has field s r →
  find_or_null (field_is field s) (rs ++ [r]) = Some r.
Proof.
  unfold find_or_null. intros Habs Hr.
  induction Habs as [|x rs Hx _ IH]; simpl.
  - apply field_is_has in Hr. by rewrite Hr.
  - apply field_is_absent in Hx. by rewrite Hx.
Qed.

Lemma getById_last (c : collection) w rs r id :
  stored c w (rs ++ [r]) → absent "id" id rs → has "id" id r →
  Store.getById c id w = (inr (Some r), w).
Proof.
  unfold stored. intros Hrs Habs Hr.
  destruct c; open_store; run_store; by rewrite find_last_absent.
Qed.

(** C10, as the code has it.  [createBlogPost] sets [views] and [likes] to 0
    whatever the caller gives, and sets [publishedDate] and [updatedDate]
    each to a reading of the clock of its own: the second and the third
    reading of the call (the first one goes into the id).  The two dates are
    equal when these two readings are the same instant. *)
Theorem createBlogPost_counters_and_dates (w : World) (posts : list record)
    (post : record) :
  stored Store.BlogPosts w posts → writable Store.BlogPosts w →
  ∃ r w',
    createBlogPost post w = (inr r, w') ∧
    r !! "views" = Some (VNum 0) ∧
    r !! "likes" = Some (VNum 0) ∧
    r !! "publishedDate" = Some (VStr (JS.toISOString (clock w 1))) ∧
    r !! "updatedDate" = Some (VStr (JS.toISOString (clock w 2))) ∧
    (clock w 1 = clock w 2 → r !! "publishedDate" = r !! "updatedDate").
Proof.
  intros Hrs Hw. eexists _, _.
  split; [exact (create_runs Store.BlogPosts w posts post Hrs Hw)|].
  cbn [created]. repeat split; try by simplify_map_eq.
  intros Heq. simplify_map_eq. by rewrite Heq.
Qed.

Lemma createBlogPost_counters_and_dates_witness :
  let w := sample_world Store.BlogPosts [] in
  stored Store.BlogPosts w [] ∧ writable Store.BlogPosts w ∧
  ∃ r w',
    createBlogPost post_with_counters w = (inr r, w') ∧
    r !! "views" = Some (VNum 0) ∧
    r !! "likes" = Some (VNum 0) ∧
    r !! "publishedDate" = Some (VStr "2023-11-14T22:13:20.001Z") ∧
    r !! "updatedDate" = Some (VStr "2023-11-14T22:13:20.002Z").
Proof.
  intros w.
  assert (Hrs : stored Store.BlogPosts w []) by reflexivity.
  assert (Hw : writable Store.BlogPosts w) by (unfold writable; simpl; set_solver).
  do 2 (split; [assumption|]).
  destruct (createBlogPost_counters_and_dates w [] post_with_counters Hrs Hw)
    as (r & w' & Hrun & Hviews & Hlikes & Hpublished & Hupdated & _).
  exists r, w'. repeat (split; [assumption|]). assumption.
Defined.

(** C10 as stated fails: the clock is read once for each date, and a clock
    that moves between the two readings gives two different dates. *)
Lemma createBlogPost_dates_equal_counterexample :
  let w := sample_world Store.BlogPosts [] in
  ∃ r, fst (createBlogPost post_with_counters w) = inr r ∧
       r !! "publishedDate" ≠ r !! "updatedDate".
Proof.
  intros w. eexists. split.
  - erewrite (create_runs Store.BlogPosts w []); [reflexivity | reflexivity |].
    unfold writable; simpl; set_solver.
  - vm_compute. discriminate.
Qed.

(** ** Round trip *)

(** X19. The record that a successful [create] returns carries the id that
    [generateId] made, and a [getById] on that id right after returns this
    very record when no record that was in the collection before has the
    same id. *)
Theorem create_then_getById (c : collection) (w w' : World)
    (rs : list record) (input r : record) :
  Store.create c input w = (inr r, w') → stored c w rs →
  has "id" (token w) r ∧
  (absent "id" (token w) rs →
   Store.getById c (token w) w' = (inr (Some r), w')).
Proof.
  intros Hrun Hrs.
  destruct (create_success c w input r w' Hrun) as (rs0 & Hrs0 & Hw).
  rewrite (create_runs c w rs input Hrs Hw) in Hrun.
  injection Hrun as <- <-.
  split; [apply created_id|].
  intros Habs. eapply getById_last; [apply stored_written | done | apply created_id].
Qed.

Lemma create_then_getById_witness :
  let rs := [page_home; page_about] in
  let w := sample_world Store.Pages rs in
  ∃ r w',
    Store.create Store.Pages page_contact w = (inr r, w') ∧
    stored Store.Pages w rs ∧
    absent "id" (token w) rs ∧
    has "id" "loyw3v284fzyo82mvyr" r ∧
    Store.getById Store.Pages "loyw3v284fzyo82mvyr" w' = (inr (Some r), w').
Proof.
  intros rs w.
  assert (Hrs : stored Store.Pages w rs) by reflexivity.
  assert (Hw : writable Store.Pages w) by (unfold writable; simpl; set_solver).
  assert (Habs : absent "id" (token w) rs) by absent_by_computation.
  eexists _, _.
  split; [exact (create_runs Store.Pages w rs page_contact Hrs Hw)|].
  do 2 (split; [assumption|]).
  destruct (create_then_getById Store.Pages w _ rs page_contact _
              (create_runs Store.Pages w rs page_contact Hrs Hw) Hrs)
    as [Hid Hget].
  split; [exact Hid | exact (Hget Habs)].
Defined.

(** C4. The round trip of [create] and [getById] is what the store means to
    give, and the code breaks it by the defect of C2: the id that
    [generateId] makes is not compared with the ids in the collection.  When
    a record of the collection already has this id, as the record of an
    earlier creation in the same millisecond with the same draw has,
    [create] succeeds, and [getById] on the id of the record it returned
    gives back the older record, not the one that was created. *)
Theorem getById_after_create_returns_the_older_record :
  let w := sample_world Store.Pages [page_clash] in
  ∃ r w',
    Store.create Store.Pages page_contact w = (inr r, w') ∧
    has "id" "loyw3v284fzyo82mvyr" r ∧
    fst (Store.getById Store.Pages "loyw3v284fzyo82mvyr" w') = inr (Some page_clash) ∧
    page_clash !! "title" ≠ r !! "title".
Proof.
  intros w. eexists _, _. split.
  - apply (create_runs Store.Pages w [page_clash]); [reflexivity|].
    unfold writable; simpl; set_solver.
  - split; [reflexivity|]. split; [reflexivity|]. vm_compute. discriminate.
Qed.

(** ** Ids over a sequence of creations *)

#[local] Instance id_of_token_inj : Inj (=) (=) id_of_token.
Proof. intros s1 s2 H. by injection H. Qed.

Lemma consumed_written (c : collection) f d w :
  consumed c (written f d w) = written f d (consumed c w).
Proof. by destruct c. Qed.

Lemma tokens_written (c : collection) n f d w :
  tokens c n (written f d w) = tokens c n w.
Proof.
  revert w. induction n as [|n IH]; intros w; simpl; [done|].
  by rewrite consumed_written, IH.
Qed.

Lemma writable_after_create (c : collection) d w :
  writable c w → writable c (written (filename c) d (consumed c w)).
Proof. unfold writable. by destruct c. Qed.

Lemma create_all_runs (c : collection) inputs : ∀ w rs,
  stored c w rs → writable c w →
  ∃ rs' w',
    create_all c inputs w = (inr rs', w') ∧
    stored c w' (rs ++ rs') ∧
    ids rs' = id_of_token <$> tokens c (length inputs) w.
Proof.
  induction inputs as [|input rest IH]; intros w rs Hrs Hw.
  - exists [], w. by rewrite app_nil_r.
  - cbn [create_all].
    destruct (IH (written (filename c) (DArray (rs ++ [created c w input]))
                    (consumed c w))
                 (rs ++ [created c w input]))
      as (rs' & w' & Hrun & Hrs' & Hids);
      [apply stored_written | by apply writable_after_create |].
    exists (created c w input :: rs'), w'. split; [|split].
    + unfold bind at 1. rewrite (create_runs c w rs input Hrs Hw).
      unfold bind. by rewrite Hrun.
    + by rewrite <- app_assoc in Hrs'.
    + change (ids (created c w input :: rs'))
        with (created c w input !! "id" :: ids rs').
      rewrite Hids, tokens_written. cbn [length tokens]. rewrite fmap_cons.
      f_equal. apply created_id.
Qed.

Lemma absent_not_in_ids s rs : absent "id" s rs → id_of_token s ∉ ids rs.
Proof.
  unfold absent, ids, id_of_token, has. intros Habs Hin.
  apply list_elem_of_fmap in Hin as (r & Heq & Hr).
  rewrite Forall_forall in Habs. by apply (Habs r Hr).
Qed.

(** X18. Over a sequence of creations on a collection whose file is
    readable and writable, every creation succeeds, the created records are
    stored after the records in place, and their ids are the tokens of
    [generateId], in order; so no two created records share an id when the
    tokens are pairwise distinct, and no two records of the resulting
    collection share an id when, moreover, the ids in place were distinct
    and none of them is one of the tokens. *)
Theorem create_ids_are_the_tokens (c : collection) (w : World)
    (rs inputs : list record) :
  stored c w rs → writable c w →
  ∃ rs' w',
    create_all c inputs w = (inr rs', w') ∧
    stored c w' (rs ++ rs') ∧
    ids rs' = id_of_token <$> tokens c (length inputs) w ∧
    (NoDup (tokens c (length inputs) w) → NoDup (ids rs')) ∧
    (NoDup (tokens c (length inputs) w) → NoDup (ids rs) →
     (∀ s, s ∈ tokens c (length inputs) w → absent "id" s rs) →
     NoDup (ids (rs ++ rs'))).
Proof.
  intros Hrs Hw.
  destruct (create_all_runs c inputs w rs Hrs Hw) as (rs' & w' & Hrun & Hrs' & Hids).
  exists rs', w'. do 3 (split; [done|]). split.
  - intros Hnodup. rewrite Hids. by apply (NoDup_fmap_2 id_of_token).
  - intros Hnodup Hold Hfresh. unfold ids. rewrite fmap_app. apply NoDup_app.
    split; [done|]. split.
    + intros x Hx Hx'. fold (ids rs) in Hx. fold (ids rs') in Hx'.
      rewrite Hids in Hx'. apply list_elem_of_fmap in Hx' as (s & -> & Hs).
      by apply (absent_not_in_ids s rs (Hfresh s Hs)).
    + fold (ids rs'). rewrite Hids. by apply (NoDup_fmap_2 id_of_token).
Qed.

Lemma create_ids_are_the_tokens_witness :
  let rs := [page_home; page_about] in
  let w := sample_world Store.Pages rs in
  let inputs := [page_contact; page_contact] in
  stored Store.Pages w rs ∧ writable Store.Pages w ∧
  tokens Store.Pages 2 w = ["loyw3v284fzyo82mvyr"; "loyw3v2b4fzyo82mvyr"] ∧
  ∃ rs' w',
    create_all Store.Pages inputs w = (inr rs', w') ∧
    stored Store.Pages w' (rs ++ rs') ∧
    NoDup (ids (rs ++ rs')).
Proof.
  intros rs w inputs.
  assert (Hrs : stored Store.Pages w rs) by reflexivity.
  assert (Hw : writable Store.Pages w) by (unfold writable; simpl; set_solver).
  do 2 (split; [assumption|]). split; [reflexivity|].
  destruct (create_ids_are_the_tokens Store.Pages w rs inputs Hrs Hw)
    as (rs' & w' & Hrun & Hrs' & _ & _ & Hnodup).
  exists rs', w'. do 2 (split; [assumption|]).
  apply Hnodup.
  - apply (bool_decide_unpack _). vm_compute. exact I.
  - unfold ids. apply NoDup_cons. split; [|apply NoDup_singleton].
    intros Hin. apply list_elem_of_singleton in Hin.
    vm_compute in Hin. discriminate.
  - intros s Hs. cbn in Hs.
    apply elem_of_cons in Hs as [->|Hs]; [absent_by_computation|].
    apply elem_of_cons in Hs as [->|Hs]; [absent_by_computation|].
    by apply elem_of_nil in Hs.
Defined.

(** C2. The ids of a collection are meant to be unique, and [generateId] is
    documented in the source as generating a unique id; the code does not
    keep this.  The id is one reading of the clock and one draw, and no
    creation compares it with the ids in the collection: two creations in
    the same millisecond whose draws are the same number give two records
    with the same id, the second one an id that a record of the collection
    already has. *)
Theorem create_assigns_an_id_already_present :
  let w := frozen_world Store.Pages [] in
  ∃ r1 r2 w1 w2,
    Store.create Store.Pages page_contact w = (inr r1, w1) ∧
    Store.create Store.Pages page_contact w1 = (inr r2, w2) ∧
    stored Store.Pages w1 [r1] ∧
    stored Store.Pages w2 [r1; r2] ∧
    r1 !! "id" = Some (VStr "loyw3v284fzyo82mvyr") ∧
    r2 !! "id" = Some (VStr "loyw3v284fzyo82mvyr") ∧
    ¬ NoDup (ids [r1; r2]).
Proof.
  intros w.
  assert (Hw : writable Store.Pages w) by (unfold writable; simpl; set_solver).
  eexists _, _, _, _.
  split; [apply (create_runs Store.Pages w []); [reflexivity | exact Hw]|].
  split; [eapply create_runs; [apply stored_written | by apply writable_after_create]|].
  split; [reflexivity|]. split; [reflexivity|].
  split; [reflexivity|]. split; [reflexivity|].
  intros Hnodup. apply NoDup_cons in Hnodup as [Hnotin _].
  apply Hnotin. left.
Qed.

(** ** The aggregate *)

Lemma readDataFile_error f w e w' :
  readDataFile f w = (inl e, w') →
  e = Error ("Failed to read " +:+ f) ∧ unreadable w f ∧ disk w' = disk w.
Proof.
  unfold readDataFile, try_catch, fs_readFile_parse, unreadable.
  destruct (disk w !! f) as [[|d]|]; cbn; intros H; inversion H; auto.
Qed.

Lemma unreadable_same_disk w w' f :
  disk w' = disk w → unreadable w f → unreadable w' f.
Proof. unfold unreadable. by intros ->. Qed.

Lemma Promise_all_reads_fail fs : ∀ w,
  Exists (unreadable w) fs →
  ∃ g w',
    Promise_all (readDataFile <$> fs) w = (inl (Error ("Failed to read " +:+ g)), w') ∧
    g ∈ fs ∧ unreadable w g.
Proof.
  induction fs as [|f fs IH]; intros w Hex; [by apply Exists_nil in Hex|].
  rewrite fmap_cons. cbn [Promise_all].
  destruct (readDataFile f w) as [[e|d] w1] eqn:Hread.
  - apply readDataFile_error in Hread as (-> & Hf & _).
    eexists _, _. split; [reflexivity|]. split; [apply list_elem_of_here | done].
  - apply readDataFile_inv in Hread as [Hd ->].
    apply Exists_cons in Hex as [[Hf|Hf]|Hex]; [congruence | congruence |].
    destruct (IH w Hex) as (g & w' & -> & Hg & Hbad).
    exists g, w'. split; [reflexivity|]. split; [by apply list_elem_of_further | done].
Qed.

(** C5. Fail-fast snapshot: when one of the files that [getAllData] reads is
    missing or does not parse, [getAllData] fails with the error of a file
    that could not be read; it returns no aggregate, whatever the other
    files hold. *)
Theorem getAllData_fails_fast (w : World) (f : string) :
  f ∈ snapshot_files → unreadable w f →
  ∃ g w',
    getAllData w = (inl (Error ("Failed to read " +:+ g)), w') ∧
    g ∈ snapshot_files ∧ unreadable w g.
Proof.
  intros Hf Hbad.
  destruct (Promise_all_reads_fail snapshot_files w) as (g & w' & Hrun & Hg & Hgbad).
  { apply Exists_exists. by exists f. }
  exists g, w'. split; [|done].
  unfold getAllData, bind.
  change [getPages; getBlogPosts; getDoctors; getCases; getSEOSettings]
    with (readDataFile <$> snapshot_files).
  by rewrite Hrun.
Qed.

Lemma getAllData_fails_fast_witness :
  "doctors.json" ∈ snapshot_files ∧ unreadable damaged_world "doctors.json" ∧
  ∃ g w',
    getAllData damaged_world = (inl (Error ("Failed to read " +:+ g)), w') ∧
    g ∈ snapshot_files ∧ unreadable damaged_world g.
Proof.
  assert (Hf : "doctors.json" ∈ snapshot_files).
  { unfold snapshot_files. do 2 apply list_elem_of_further. apply list_elem_of_here. }
  assert (Hbad : unreadable damaged_world "doctors.json") by (right; reflexivity).
  do 2 (split; [assumption|]).
  exact (getAllData_fails_fast damaged_world "doctors.json" Hf Hbad).
Defined.

Example getAllData_damaged :
  fst (getAllData damaged_world) = inl (Error "Failed to read doctors.json").
Proof. reflexivity. Qed.

(** C6, as the code has it.  [getAllData] reads five files and assembles
    five entries, the ones of the [Database] type: [pages], [blog-posts],
    [doctors], [cases] and [seo-settings], each with the content of its
    file.  The other collections of the routing layer (services,
    testimonials, appointments, categories, contact, settings, skills,
    articles) are not read and are not in the aggregate. *)
Theorem getAllData_aggregate (w : World)
    (pages blogPosts doctors cases seoSettings : document) :
  disk w !! "pages.json" = Some (Json pages) →
  disk w !! "blog-posts.json" = Some (Json blogPosts) →
  disk w !! "doctors.json" = Some (Json doctors) →
  disk w !! "cases.json" = Some (Json cases) →
  disk w !! "seo-settings.json" = Some (Json seoSettings) →
  ∃ db : gmap string document,
    getAllData w = (inr db, w) ∧
    db !! "pages" = Some pages ∧
    db !! "blog-posts" = Some blogPosts ∧
    db !! "doctors" = Some doctors ∧
    db !! "cases" = Some cases ∧
    db !! "seo-settings" = Some seoSettings ∧
    ∀ name, is_Some (db !! name) ↔
            name ∈ ["pages"; "blog-posts"; "doctors"; "cases"; "seo-settings"].
Proof.
  intros Hp Hb Hd Hc Hs. eexists. split.
  - unfold getAllData, bind at 1. cbn [Promise_all].
    unfold getPages, getBlogPosts, getDoctors, getCases, getSEOSettings,
           readDataFile, try_catch, fs_readFile_parse.
    rewrite Hp, Hb, Hd, Hc, Hs. reflexivity.
  - do 5 (split; [by simplify_map_eq|]).
    intros name. rewrite !lookup_insert_is_Some, lookup_empty, is_Some_alt.
    rewrite !elem_of_cons, elem_of_nil. split.
    + intros [<-|[_ [<-|[_ [<-|[_ [<-|[_ [<-|[_ []]]]]]]]]]];
        repeat (first [left; reflexivity | right]).
    + intros [->|[->|[->|[->|[->|[]]]]]];
        repeat (first [left; reflexivity | right; split; [discriminate|]]).
Qed.

Lemma getAllData_aggregate_witness :
  let w := sample_world Store.Pages [page_home; page_about] in
  ∃ db : gmap string document,
    getAllData w = (inr db, w) ∧
    db !! "pages" = Some (DArray [page_home; page_about]) ∧
    db !! "seo-settings" = Some (DObject ∅) ∧
    (is_Some (db !! "doctors") ↔
     "doctors" ∈ ["pages"; "blog-posts"; "doctors"; "cases"; "seo-settings"]).
Proof.
  intros w.
  destruct (getAllData_aggregate w (DArray [page_home; page_about]) (DArray [])
              (DArray []) (DArray []) (DObject ∅)
              eq_refl eq_refl eq_refl eq_refl eq_refl)
    as (db & Hrun & Hpages & _ & _ & _ & Hseo & Hdom).
  exists db. split; [exact Hrun|]. split; [exact Hpages|].
  split; [exact Hseo | exact (Hdom "doctors")].
Defined.

(** C6 as stated fails: with every file in place, the aggregate has no entry
    for the services, one of the collections of the routing layer. *)
Lemma getAllData_every_collection_counterexample :
  ∃ db : gmap string document,
    fst (getAllData full_world) = inr db ∧
    fst (getServices full_world) = inr (DArray []) ∧
    "services" ∈ known_collections ∧
    ¬ (∀ name, name ∈ known_collections → is_Some (db !! name)).
Proof.
  eexists. split; [reflexivity|]. split; [reflexivity|].
  assert (Hin : "services" ∈ known_collections).
  { unfold known_collections. do 4 apply list_elem_of_further. apply list_elem_of_here. }
  split; [exact Hin|].
  intros Hall. destruct (Hall "services" Hin) as [d Hd].
  vm_compute in Hd. discriminate.
Qed.

(** ** Creation, beyond the ids *)

Lemma trace_consumed (c : collection) w : trace (consumed c w) = trace w.
Proof. by destruct c. Qed.

Lemma disk_consumed (c : collection) w : disk (consumed c w) = disk w.
Proof. by destruct c. Qed.

(** X1. [create] reads the collection, puts the new record after the
    records in place, which keep their order, and writes the file once. *)
Theorem create_appends_last (c : collection) (w : World)
    (rs : list record) (input : record) :
  stored c w rs → writable c w →
  ∃ r w',
    Store.create c input w = (inr r, w') ∧
    stored c w' (rs ++ [r]) ∧
    trace w' = Wrote (filename c) :: trace w.
Proof.
  intros Hrs Hw. eexists _, _.
  split; [by apply create_runs|]. split; [apply stored_written|].
  cbn [written trace]. by rewrite trace_consumed.
Qed.

Lemma create_appends_last_witness :
  let rs := [page_home; page_about] in
  let w := sample_world Store.Pages rs in
  stored Store.Pages w rs ∧ writable Store.Pages w ∧
  ∃ r w',
    Store.create Store.Pages page_contact w = (inr r, w') ∧
    stored Store.Pages w' [page_home; page_about; r] ∧
    trace w' = [Wrote "pages.json"].
Proof.
  intros rs w.
  assert (Hrs : stored Store.Pages w rs) by reflexivity.
  assert (Hw : writable Store.Pages w) by (unfold writable; simpl; set_solver).
  do 2 (split; [assumption|]).
  exact (create_appends_last Store.Pages w rs page_contact Hrs Hw).
Defined.

Lemma created_unmanaged (c : collection) w input field :
  field ∉ managed c → created c w input !! field = input !! field.
Proof.
  destruct c; cbn [managed created]; rewrite ?not_elem_of_cons;
    intros Hne; by rewrite ?lookup_insert_ne by (intros <-; intuition congruence).
Qed.

Lemma created_managed (c : collection) w input field :
  field ∈ managed c → created c w input !! field = created c w ∅ !! field.
Proof.
  destruct c; cbn [managed created]; rewrite ?elem_of_cons, elem_of_nil;
    intros Hin; repeat destruct Hin as [->|Hin]; try done; by simplify_map_eq.
Qed.

(** X2. The record that [create] returns has every field of the caller's
    record as it is, but the fields that the store manages ([id] in every
    collection, the two dates of a page, the two dates and the two counters
    of a blog post): for these, what the caller sends is discarded, and the
    id is the generated token. *)
Theorem create_copies_caller_fields (c : collection) (w : World)
    (rs : list record) (input : record) :
  stored c w rs → writable c w →
  ∃ r w',
    Store.create c input w = (inr r, w') ∧
    has "id" (token w) r ∧
    (∀ field, field ∉ managed c → r !! field = input !! field) ∧
    (∀ field, field ∈ managed c → r !! field = created c w ∅ !! field).
Proof.
  intros Hrs Hw. eexists _, _.
  split; [by apply create_runs|]. split; [apply created_id|].
  split; intros field Hfield.
  - by apply created_unmanaged.
  - by apply created_managed.
Qed.

Lemma create_copies_caller_fields_witness :
  let w := sample_world Store.Pages [] in
  stored Store.Pages w [] ∧ writable Store.Pages w ∧
  ∃ r w',
    Store.create Store.Pages page_clash w = (inr r, w') ∧
    page_clash !! "id" = Some (VStr "loyw3v284fzyo82mvyr") ∧
    r !! "title" = Some (VStr "Old") ∧
    r !! "createdAt" = Some (VStr "2023-11-14T22:13:20.001Z").
Proof.
  intros w.
  assert (Hrs : stored Store.Pages w []) by reflexivity.
  assert (Hw : writable Store.Pages w) by (unfold writable; simpl; set_solver).
  do 2 (split; [assumption|]).
  destruct (create_copies_caller_fields Store.Pages w [] page_clash Hrs Hw)
    as (r & w' & Hrun & _ & Hcopy & Hset).
  exists r, w'. split; [exact Hrun|]. split; [reflexivity|]. split.
  - apply (Hcopy "title"). cbn [managed]. rewrite !not_elem_of_cons.
    repeat split; try discriminate. apply not_elem_of_nil.
  - apply (Hset "createdAt"). cbn [managed].
    apply list_elem_of_further, list_elem_of_here.
Defined.

(** ** Finding a record *)

Lemma find_first field s pre r post :
  absent field s pre → has field s r →
  find_or_null (field_is field s) (pre ++ r :: post) = Some r.
Proof.
  unfold find_or_null. intros Habs Hr.
  induction Habs as [|x pre Hx _ IH]; simpl.
  - apply field_is_has in Hr. by rewrite Hr.
  - apply field_is_absent in Hx. by rewrite Hx.
Qed.

(** What [find] returns: the first record with the value, or nothing when
    no record has it. *)
Lemma find_or_null_spec field s rs :
  match find_or_null (field_is field s) rs with
  | Some r => ∃ pre post, rs = pre ++ r :: post ∧ absent field s pre ∧ has field s r
  | None => absent field s rs
  end.
Proof.
  unfold find_or_null. induction rs as [|x rs IH]; simpl; [constructor|].
  destruct (field_is field s x) eqn:Hx.
  - exists [], rs. split; [done|]. split; [constructor | by apply field_is_has].
  - apply field_is_absent in Hx. destruct (List.find (field_is field s) rs) as [r|].
    + destruct IH as (pre & post & -> & Hpre & Hr).
      exists (x :: pre), post. split; [done|]. split; [by constructor | done].
    + by constructor.
Qed.

Lemma getById_runs (c : collection) w rs id :
  stored c w rs →
  Store.getById c id w = (inr (find_or_null (field_is "id" id) rs), w).
Proof. unfold stored. intros Hrs. destruct c; open_store; by run_store. Qed.

Lemma getBySlug_runs (c : collection) w rs slug :
  stored c w rs →
  Store.getBySlug c slug w = (inr (find_or_null (field_is "slug" slug) rs), w).
Proof. unfold stored. intros Hrs. destruct c; open_store; by run_store. Qed.

(** X3. [getById] and [getBySlug] on a collection that reads and parses
    return the first record, in stored order, whose [id] (whose [slug]) is
    the given string, and return the not-found outcome only when no record
    has it; they leave the world as it is. *)
Theorem get_returns_first_match (c : collection) (w : World)
    (rs : list record) (key : string) :
  stored c w rs →
  (∃ found, Store.getById c key w = (inr found, w) ∧
     match found with
     | Some r => ∃ pre post, rs = pre ++ r :: post ∧ absent "id" key pre ∧ has "id" key r
     | None => absent "id" key rs
     end) ∧
  (∃ found, Store.getBySlug c key w = (inr found, w) ∧
     match found with
     | Some r => ∃ pre post, rs = pre ++ r :: post ∧ absent "slug" key pre ∧ has "slug" key r
     | None => absent "slug" key rs
     end).
Proof.
  intros Hrs. split; eexists; (split; [|apply find_or_null_spec]).
  - by apply getById_runs.
  - by apply getBySlug_runs.
Qed.

Lemma get_returns_first_match_witness :
  let twin : record := <["id" := VStr "7"]> (<["slug" := VStr "about"]> ∅) in
  let rs := [page_home; page_about; twin] in
  let w := sample_world Store.Pages rs in
  stored Store.Pages w rs ∧
  (∃ found, Store.getById Store.Pages "7" w = (inr found, w) ∧
     match found with
     | Some r => ∃ pre post, rs = pre ++ r :: post ∧ absent "id" "7" pre ∧ has "id" "7" r
     | None => absent "id" "7" rs
     end) ∧
  (∃ found, Store.getBySlug Store.Pages "about" w = (inr found, w) ∧
     match found with
     | Some r =>
         ∃ pre post, rs = pre ++ r :: post ∧ absent "slug" "about" pre ∧ has "slug" "about" r
     | None => absent "slug" "about" rs
     end).
Proof.
  intros twin rs w.
  assert (Hrs : stored Store.Pages w rs) by reflexivity.
  split; [assumption|].
  split.
  - exact (proj1 (get_returns_first_match Store.Pages w rs "7" Hrs)).
  - exact (proj2 (get_returns_first_match Store.Pages w rs "about" Hrs)).
Defined.

Example getBySlug_first_of_two :
  let twin : record := <["id" := VStr "7"]> (<["slug" := VStr "about"]> ∅) in
  fst (getPageBySlug "about" (sample_world Store.Pages [page_home; page_about; twin]))
  = inr (Some page_about).
Proof. reflexivity. Qed.

(** ** Update, beyond the fields *)

Lemma getById_first (c : collection) w pre r post id :
  stored c w (pre ++ r :: post) → absent "id" id pre → has "id" id r →
  Store.getById c id w = (inr (Some r), w).
Proof.
  intros Hrs Habs Hr. rewrite (getById_runs c w _ id Hrs). by rewrite find_first.
Qed.

Lemma trace_after_update (c : collection) w :
  trace (match update_stamp c with Some _ => tick w | None => w end) = trace w.
Proof. by destruct c. Qed.

(** X4. [update] replaces the first record that has the id, at its place:
    the records before and after it, also later records with the same id,
    stay as they are and where they are, and the file is written once. *)
Theorem update_replaces_in_place (c : collection) (w : World)
    (rs pre : list record) (r : record) (post : list record)
    (id : string) (updates : record) :
  stored c w rs → writable c w → first_with_id id rs pre r post →
  ∃ r' w',
    Store.update c id updates w = (inr (Some r'), w') ∧
    stored c w' (pre ++ r' :: post) ∧
    trace w' = Wrote (filename c) :: trace w.
Proof.
  intros Hrs Hw Hfirst. eexists _, _.
  split; [by eapply update_present|]. split; [apply stored_written|].
  cbn [written trace]. by rewrite trace_after_update.
Qed.

Lemma update_replaces_in_place_witness :
  let twin : record := <["id" := VStr "1"]> (<["title" := VStr "Twin"]> ∅) in
  let rs := [page_home; page_about; twin] in
  let w := sample_world Store.Pages rs in
  let updates : record := <["title" := VStr "Welcome"]> ∅ in
  stored Store.Pages w rs ∧ writable Store.Pages w ∧
  first_with_id "1" rs [] page_home [page_about; twin] ∧
  ∃ r' w',
    Store.update Store.Pages "1" updates w = (inr (Some r'), w') ∧
    stored Store.Pages w' [r'; page_about; twin] ∧
    trace w' = [Wrote "pages.json"].
Proof.
  intros twin rs w updates.
  assert (Hrs : stored Store.Pages w rs) by reflexivity.
  assert (Hw : writable Store.Pages w) by (unfold writable; simpl; set_solver).
  assert (Hfirst : first_with_id "1" rs [] page_home [page_about; twin]).
  { split; [reflexivity|]. split; [constructor | reflexivity]. }
  do 3 (split; [assumption|]).
  exact (update_replaces_in_place Store.Pages w rs [] page_home [page_about; twin]
           "1" updates Hrs Hw Hfirst).
Defined.

Lemma updated_has_id (c : collection) t updates r id :
  updates !! "id" = None → has "id" id r → has "id" id (updated c t updates r).
Proof.
  unfold has. intros Hu Hr.
  rewrite updated_lookup by apply update_stamp_not_identity. by rewrite Hu.
Qed.

Lemma updated_moves_id (c : collection) t updates r id' :
  updates !! "id" = Some (VStr id') → has "id" id' (updated c t updates r).
Proof.
  unfold has. intros Hu.
  rewrite updated_lookup by apply update_stamp_not_identity. by rewrite Hu.
Qed.

Lemma absent_app field s xs ys :
  absent field s (xs ++ ys) ↔ absent field s xs ∧ absent field s ys.
Proof. unfold absent. apply Forall_app. Qed.

Lemma absent_cons field s x xs :
  absent field s (x :: xs) ↔ ¬ has field s x ∧ absent field s xs.
Proof.
  unfold absent. split.
  - intros H. by inversion H.
  - intros [Hx Hxs]. by constructor.
Qed.

(** X5. After an [update] whose payload has no [id], [getById] on the id
    returns the updated record.  After an [update] whose payload carries
    another id, the record is found under the new id only: under the old id
    [getById] returns the next record that has it, and the not-found outcome
    when there is none. *)
Theorem update_then_getById (c : collection) (w : World)
    (rs pre : list record) (r : record) (post : list record)
    (id : string) (updates : record) :
  stored c w rs → writable c w → first_with_id id rs pre r post →
  ∃ r' w',
    Store.update c id updates w = (inr (Some r'), w') ∧
    (updates !! "id" = None →
     Store.getById c id w' = (inr (Some r'), w')) ∧
    (∀ id', updates !! "id" = Some (VStr id') → id' ≠ id →
            Store.getById c id w' =
              (inr (find_or_null (field_is "id" id) post), w') ∧
            (absent "id" id' pre → Store.getById c id' w' = (inr (Some r'), w'))).
Proof.
  intros Hrs Hw Hfirst. pose proof Hfirst as (-> & Hpre & Hr).
  eexists _, _. split; [by eapply update_present|]. split.
  - intros Hu. eapply getById_first; [apply stored_written | done |].
    by apply updated_has_id.
  - intros id' Hu Hne.
    pose proof (updated_moves_id c (clock w 0) updates r id' Hu) as Hmoved.
    split.
    + erewrite getById_runs by apply stored_written. f_equal. f_equal.
      unfold find_or_null. clear Hrs Hfirst.
      induction Hpre as [|x pre Hx _ IH]; simpl.
      * assert (Hno : field_is "id" id (updated c (clock w 0) updates r) = false).
        { apply field_is_absent. unfold has in *. rewrite Hmoved. congruence. }
        by rewrite Hno.
      * apply field_is_absent in Hx. by rewrite Hx.
    + intros Hpre'. eapply getById_first; [apply stored_written | done | done].
Qed.

Lemma update_then_getById_witness :
  let rs := [page_home; page_about] in
  let w := sample_world Store.Pages rs in
  let updates : record := <["id" := VStr "9"]> ∅ in
  stored Store.Pages w rs ∧ writable Store.Pages w ∧
  first_with_id "2" rs [page_home] page_about [] ∧
  ∃ r' w',
    Store.update Store.Pages "2" updates w = (inr (Some r'), w') ∧
    Store.getById Store.Pages "2" w' = (inr None, w') ∧
    Store.getById Store.Pages "9" w' = (inr (Some r'), w').
Proof.
  intros rs w updates.
  assert (Hrs : stored Store.Pages w rs) by reflexivity.
  assert (Hw : writable Store.Pages w) by (unfold writable; simpl; set_solver).
  assert (Hfirst : first_with_id "2" rs [page_home] page_about []).
  { split; [reflexivity|]. split; [absent_by_computation | reflexivity]. }
  do 3 (split; [assumption|]).
  destruct (update_then_getById Store.Pages w rs [page_home] page_about [] "2"
              updates Hrs Hw Hfirst) as (r' & w' & Hrun & _ & Hmoved).
  destruct (Hmoved "9" eq_refl ltac:(discriminate)) as [Hold Hnew].
  exists r', w'. split; [exact Hrun|]. split; [exact Hold|].
  apply Hnew. absent_by_computation.
Defined.

(** ** Deletion, beyond the outcome *)

Lemma filter_keeps_others field s rs r :
  r ∈ List.filter (λ r, negb (field_is field s r)) rs ↔ r ∈ rs ∧ ¬ has field s r.
Proof.
  rewrite !list_elem_of_In, List.filter_In, negb_true_iff, field_is_absent. tauto.
Qed.

Lemma filter_sublist (p : record → bool) rs : List.filter p rs `sublist_of` rs.
Proof.
  induction rs as [|r rs IH]; simpl; [constructor|].
  destruct (p r); by constructor.
Qed.

(** X6. [delete] of an id that some record has removes every record with
    this id, not the first one only; the other records stay, in their
    order; the file is written once, and a [getById] on the id right after
    returns the not-found outcome. *)
Theorem delete_removes_every_match (c : collection) (w : World)
    (rs : list record) (id : string) :
  stored c w rs → writable c w → Exists (has "id" id) rs →
  ∃ rs' w',
    Store.delete c id w = (inr true, w') ∧
    stored c w' rs' ∧
    (∀ r, r ∈ rs' ↔ r ∈ rs ∧ ¬ has "id" id r) ∧
    rs' `sublist_of` rs ∧
    trace w' = Wrote (filename c) :: trace w ∧
    Store.getById c id w' = (inr None, w').
Proof.
  intros Hrs Hw Hex. eexists _, _.
  split; [by apply delete_present|]. split; [apply stored_written|].
  split; [intros r; apply filter_keeps_others|].
  split; [apply filter_sublist|]. split; [reflexivity|].
  eapply getById_absent; [apply stored_written | apply filter_leaves_absent].
Qed.

Lemma delete_removes_every_match_witness :
  let twin : record := <["id" := VStr "1"]> (<["title" := VStr "Twin"]> ∅) in
  let rs := [page_home; page_about; twin] in
  let w := sample_world Store.Pages rs in
  stored Store.Pages w rs ∧ writable Store.Pages w ∧ Exists (has "id" "1") rs ∧
  ∃ rs' w',
    Store.delete Store.Pages "1" w = (inr true, w') ∧
    stored Store.Pages w' rs' ∧
    (∀ r, r ∈ rs' ↔ r ∈ rs ∧ ¬ has "id" "1" r) ∧
    rs' `sublist_of` rs ∧
    trace w' = [Wrote "pages.json"] ∧
    Store.getById Store.Pages "1" w' = (inr None, w').
Proof.
  intros twin rs w.
  assert (Hrs : stored Store.Pages w rs) by reflexivity.
  assert (Hw : writable Store.Pages w) by (unfold writable; simpl; set_solver).
  assert (Hex : Exists (has "id" "1") rs) by (left; reflexivity).
  do 3 (split; [assumption|]).
  exact (delete_removes_every_match Store.Pages w rs "1" Hrs Hw Hex).
Defined.

Example delete_twins :
  let twin : record := <["id" := VStr "1"]> (<["title" := VStr "Twin"]> ∅) in
  disk (snd (deletePage "1" (sample_world Store.Pages [page_home; page_about; twin])))
    !! "pages.json" = Some (Json (DArray [page_about])).
Proof. reflexivity. Qed.

Lemma filter_drops_last field s rs r :
  absent field s rs → has field s r →
  List.filter (λ r, negb (field_is field s r)) (rs ++ [r]) = rs.
Proof.
  intros Habs Hr. rewrite List.filter_app, filter_absent by done. simpl.
  apply field_is_has in Hr. rewrite Hr. simpl. apply app_nil_r.
Qed.

Lemma Exists_last field s rs r : has field s r → Exists (has field s) (rs ++ [r]).
Proof. intros Hr. apply Exists_app. right. by left. Qed.

(** X7. A [create] followed by the [delete] of the generated id gives the
    collection back as it was, when no record in place had this id. *)
Theorem create_then_delete_restores (c : collection) (w : World)
    (rs : list record) (input : record) :
  stored c w rs → writable c w → absent "id" (token w) rs →
  ∃ r w1 w2,
    Store.create c input w = (inr r, w1) ∧
    Store.delete c (token w) w1 = (inr true, w2) ∧
    stored c w2 rs.
Proof.
  intros Hrs Hw Habs. eexists _, _, _.
  split; [by apply create_runs|]. split.
  - apply delete_present;
      [apply stored_written | by apply writable_after_create |].
    apply Exists_last, created_id.
  - rewrite filter_drops_last by (done || apply created_id).
    apply stored_written.
Qed.

Lemma create_then_delete_restores_witness :
  let rs := [page_home; page_about] in
  let w := sample_world Store.Pages rs in
  stored Store.Pages w rs ∧ writable Store.Pages w ∧ absent "id" (token w) rs ∧
  ∃ r w1 w2,
    Store.create Store.Pages page_contact w = (inr r, w1) ∧
    Store.delete Store.Pages "loyw3v284fzyo82mvyr" w1 = (inr true, w2) ∧
    stored Store.Pages w2 rs.
Proof.
  intros rs w.
  assert (Hrs : stored Store.Pages w rs) by reflexivity.
  assert (Hw : writable Store.Pages w) by (unfold writable; simpl; set_solver).
  assert (Habs : absent "id" (token w) rs) by absent_by_computation.
  do 3 (split; [assumption|]).
  exact (create_then_delete_restores Store.Pages w rs page_contact Hrs Hw Habs).
Defined.

(** ** The ids under update and delete *)

Lemma ids_app xs ys : ids (xs ++ ys) = ids xs ++ ids ys.
Proof. unfold ids. apply fmap_app. Qed.

Lemma ids_filter_sublist (p : record → bool) rs :
  ids (List.filter p rs) `sublist_of` ids rs.
Proof. unfold ids. apply fmap_sublist, filter_sublist. Qed.

(** X8. The ids of a collection under the two other mutations: an [update]
    whose payload has no [id] leaves the list of the ids as it is, and a
    [delete] leaves a sublist of it; so a collection with no two records of
    the same id stays so under both. *)
Theorem update_and_delete_keep_ids_distinct (c : collection) (w : World)
    (rs : list record) (id : string) :
  stored c w rs → writable c w → Exists (has "id" id) rs →
  (∀ updates : record, updates !! "id" = None →
     ∃ r' rs' w',
       Store.update c id updates w = (inr (Some r'), w') ∧
       stored c w' rs' ∧ ids rs' = ids rs) ∧
  (∃ rs' w',
     Store.delete c id w = (inr true, w') ∧
     stored c w' rs' ∧ ids rs' `sublist_of` ids rs ∧
     (NoDup (ids rs) → NoDup (ids rs'))).
Proof.
  intros Hrs Hw Hex. split.
  - intros updates Hu.
    pose proof (find_or_null_spec "id" id rs) as Hspec.
    destruct (find_or_null (field_is "id" id) rs) as [r|].
    + destruct Hspec as (pre & post & -> & Hpre & Hr).
      eexists _, _, _. split; [by eapply update_present|].
      split; [apply stored_written|].
      rewrite !ids_app. f_equal. unfold ids. rewrite !fmap_cons. f_equal.
      rewrite updated_lookup by apply update_stamp_not_identity. by rewrite Hu.
    + exfalso. apply Exists_exists in Hex as (r & Hin & Hr).
      unfold absent in Hspec. rewrite Forall_forall in Hspec. by apply (Hspec r).
  - eexists _, _. split; [by apply delete_present|].
    split; [apply stored_written|]. split; [apply ids_filter_sublist|].
    intros Hnodup. exact (sublist_NoDup _ _ Hnodup (ids_filter_sublist _ _)).
Qed.

Lemma update_and_delete_keep_ids_distinct_witness :
  let rs := [page_home; page_about] in
  let w := sample_world Store.Pages rs in
  stored Store.Pages w rs ∧ writable Store.Pages w ∧ Exists (has "id" "2") rs ∧
  (∃ r' rs' w',
     Store.update Store.Pages "2" (<["title" := VStr "About us"]> ∅) w
       = (inr (Some r'), w') ∧
     stored Store.Pages w' rs' ∧ ids rs' = [Some (VStr "1"); Some (VStr "2")]) ∧
  (∃ rs' w',
     Store.delete Store.Pages "2" w = (inr true, w') ∧
     stored Store.Pages w' rs' ∧ ids rs' `sublist_of` ids rs ∧
     (NoDup (ids rs) → NoDup (ids rs'))).
Proof.
  intros rs w.
  assert (Hrs : stored Store.Pages w rs) by reflexivity.
  assert (Hw : writable Store.Pages w) by (unfold writable; simpl; set_solver).
  assert (Hex : Exists (has "id" "2") rs) by (right; left; reflexivity).
  do 3 (split; [assumption|]).
  destruct (update_and_delete_keep_ids_distinct Store.Pages w rs "2" Hrs Hw Hex)
    as [Hupdate Hdelete].
  split; [exact (Hupdate (<["title" := VStr "About us"]> ∅) eq_refl) | exact Hdelete].
Defined.

(** ** Failures of the storage *)

Lemma bind_readDataFile_fails {B : Type} f (k : document → M B) w :
  unreadable w f → bind (readDataFile f) k w = read_failure f w.
Proof.
  unfold unreadable, bind, readDataFile, try_catch, fs_readFile_parse, read_failure.
  by intros [-> | ->].
Qed.

Lemma bind_writeDataFile_fails {B : Type} f d (k : unit → M B) w :
  f ∈ readonly w → bind (writeDataFile f d) k w = write_failure f w.
Proof.
  intros Hf. unfold bind, writeDataFile, try_catch, fs_writeFile, write_failure.
  by destruct (decide (f ∈ readonly w)).
Qed.

(** X9. When the file of a collection is missing or does not parse, every
    operation on the collection ends with the error [Failed to read] of the
    file, after one line on the console; nothing else happens: no write, no
    reading of the clock, no draw. *)
Theorem read_failure_stops_every_operation (c : collection) (w : World)
    (key : string) (input updates : record) :
  unreadable w (filename c) →
  Store.getById c key w = read_failure (filename c) w ∧
  Store.getBySlug c key w = read_failure (filename c) w ∧
  Store.create c input w = read_failure (filename c) w ∧
  Store.update c key updates w = read_failure (filename c) w ∧
  Store.delete c key w = read_failure (filename c) w.
Proof.
  intros Hbad.
  repeat split; destruct c; open_store;
    by rewrite bind_readDataFile_fails.
Qed.

Lemma read_failure_stops_every_operation_witness :
  unreadable damaged_world "doctors.json" ∧
  Store.getById Store.Doctors "d1" damaged_world
    = read_failure "doctors.json" damaged_world ∧
  Store.create Store.Doctors doctor_a damaged_world
    = (inl (Error "Failed to read doctors.json"),
       printed "Error reading doctors.json:" damaged_world).
Proof.
  assert (Hbad : unreadable damaged_world (filename Store.Doctors))
    by (right; reflexivity).
  split; [exact Hbad|].
  destruct (read_failure_stops_every_operation Store.Doctors damaged_world "d1"
              doctor_a ∅ Hbad) as (Hget & _ & Hcreate & _).
  split; [exact Hget | exact Hcreate].
Defined.

Lemma disk_after_update (c : collection) w :
  disk (match update_stamp c with Some _ => tick w | None => w end) = disk w.
Proof. by destruct c. Qed.

Lemma create_locked (c : collection) w rs input :
  stored c w rs → filename c ∈ readonly w →
  Store.create c input w = write_failure (filename c) (consumed c w).
Proof.
  unfold stored. intros Hrs Hw.
  destruct c; open_store; run_store; by rewrite bind_writeDataFile_fails.
Qed.

Lemma update_locked (c : collection) w rs pre r post id updates :
  stored c w rs → filename c ∈ readonly w → first_with_id id rs pre r post →
  Store.update c id updates w =
    write_failure (filename c)
      (match update_stamp c with Some _ => tick w | None => w end).
Proof.
  unfold stored. intros Hrs Hw (-> & Habs & Hr).
  destruct c; open_store; run_store; unfold JS.findIndex;
    rewrite findIndex_from_found by done;
    rewrite Z.add_0_l; (destruct (Z.eqb_spec (Z.of_nat (length pre)) (-1)); [lia|]);
    run_store; by rewrite bind_writeDataFile_fails.
Qed.

Lemma delete_locked (c : collection) w rs id :
  stored c w rs → filename c ∈ readonly w → Exists (has "id" id) rs →
  Store.delete c id w = write_failure (filename c) w.
Proof.
  unfold stored. intros Hrs Hw Hex.
  apply filter_present_shorter in Hex.
  destruct c; open_store; run_store;
    (destruct (Nat.eqb_spec
       (length (List.filter (λ r, negb (field_is "id" id r)) rs)) (length rs));
     [lia|]); by rewrite bind_writeDataFile_fails.
Qed.

Lemma Exists_first_with_id id rs :
  Exists (has "id" id) rs → ∃ pre r post, first_with_id id rs pre r post.
Proof.
  intros Hex. pose proof (find_or_null_spec "id" id rs) as Hspec.
  destruct (find_or_null (field_is "id" id) rs) as [r|].
  - destruct Hspec as (pre & post & Heq & Hpre & Hr). by exists pre, r, post.
  - exfalso. apply Exists_exists in Hex as (r & Hin & Hr).
    unfold absent in Hspec. rewrite Forall_forall in Hspec. by apply (Hspec r).
Qed.

(** X10. When [fs.writeFile] refuses the file of a collection, [create],
    and [update] and [delete] of an id that some record has, end with the
    error [Failed to write] of the file, and the collection on the disk is
    the one that was there: nothing of the change is stored. *)
Theorem write_failure_keeps_the_collection (c : collection) (w : World)
    (rs : list record) :
  stored c w rs → filename c ∈ readonly w →
  (∀ input, ∃ w',
     Store.create c input w = (inl (Error ("Failed to write " +:+ filename c)), w') ∧
     disk w' = disk w) ∧
  (∀ id updates, Exists (has "id" id) rs → ∃ w',
     Store.update c id updates w
       = (inl (Error ("Failed to write " +:+ filename c)), w') ∧
     disk w' = disk w) ∧
  (∀ id, Exists (has "id" id) rs → ∃ w',
     Store.delete c id w = (inl (Error ("Failed to write " +:+ filename c)), w') ∧
     disk w' = disk w).
Proof.
  intros Hrs Hw. split; [|split].
  - intros input. eexists. split; [by eapply create_locked|].
    cbn [printed disk]. apply disk_consumed.
  - intros id updates Hex.
    destruct (Exists_first_with_id id rs Hex) as (pre & r & post & Hfirst).
    eexists. split; [by eapply update_locked|].
    cbn [printed disk]. apply disk_after_update.
  - intros id Hex. eexists. split; [by eapply delete_locked|]. reflexivity.
Qed.

Lemma write_failure_keeps_the_collection_witness :
  let rs := [page_home; page_about] in
  let w := locked_world Store.Pages rs in
  stored Store.Pages w rs ∧ filename Store.Pages ∈ readonly w ∧
  Exists (has "id" "2") rs ∧
  (∃ w', Store.create Store.Pages page_contact w
           = (inl (Error "Failed to write pages.json"), w') ∧ disk w' = disk w) ∧
  (∃ w', Store.update Store.Pages "2" (<["title" := VStr "About us"]> ∅) w
           = (inl (Error "Failed to write pages.json"), w') ∧ disk w' = disk w) ∧
  (∃ w', Store.delete Store.Pages "2" w
           = (inl (Error "Failed to write pages.json"), w') ∧ disk w' = disk w).
Proof.
  intros rs w.
  assert (Hrs : stored Store.Pages w rs) by reflexivity.
  assert (Hw : filename Store.Pages ∈ readonly w) by (simpl; set_solver).
  assert (Hex : Exists (has "id" "2") rs) by (right; left; reflexivity).
  do 3 (split; [assumption|]).
  destruct (write_failure_keeps_the_collection Store.Pages w rs Hrs Hw)
    as (Hcreate & Hupdate & Hdelete).
  split; [exact (Hcreate page_contact)|].
  split; [exact (Hupdate "2" _ Hex) | exact (Hdelete "2" Hex)].
Defined.

(** X11. When the file of a collection parses as an object and not as an
    array, the operations on the collection end with a [TypeError], not with
    the error of [readDataFile], and write nothing; [create] has read the
    clock and drawn its number by then, the others have done nothing. *)
Theorem object_in_place_of_array_is_a_TypeError (c : collection) (w : World)
    (o : record) (key : string) (input updates : record) :
  disk w !! filename c = Some (Json (DObject o)) →
  Store.getById c key w = (inl TypeError, w) ∧
  Store.getBySlug c key w = (inl TypeError, w) ∧
  Store.update c key updates w = (inl TypeError, w) ∧
  Store.delete c key w = (inl TypeError, w) ∧
  Store.create c input w = (inl TypeError, consumed c w).
Proof.
  intros Ho. repeat split; destruct c; open_store; by run_store.
Qed.

Lemma object_in_place_of_array_is_a_TypeError_witness :
  disk misshapen_world !! filename Store.Pages = Some (Json (DObject page_home)) ∧
  Store.getById Store.Pages "1" misshapen_world = (inl TypeError, misshapen_world) ∧
  Store.delete Store.Pages "1" misshapen_world = (inl TypeError, misshapen_world).
Proof.
  assert (Ho : disk misshapen_world !! filename Store.Pages
               = Some (Json (DObject page_home))) by reflexivity.
  split; [exact Ho|].
  destruct (object_in_place_of_array_is_a_TypeError Store.Pages misshapen_world
              page_home "1" ∅ ∅ Ho) as (Hget & _ & _ & Hdelete & _).
  split; [exact Hget | exact Hdelete].
Defined.

(** ** What the operations leave alone *)

Section Effects.

Context {A B : Type}.
Implicit Types (f : string) (w : World).

Lemma read_only_confined f (m : M A) : read_only m → confined f m.
Proof. intros Hm w g _. by rewrite Hm. Qed.

Lemma read_only_ret (a : A) : read_only (ret a).
Proof. by intros w. Qed.

Lemma read_only_throw e : read_only (throw e : M A).
Proof. by intros w. Qed.

Lemma read_only_bind (c : M A) (k : A → M B) :
  read_only c → (∀ a, read_only (k a)) → read_only (bind c k).
Proof.
  intros Hc Hk w. unfold bind. specialize (Hc w).
  destruct (c w) as [[e|a] w1]; simpl in *; [done|].
  by rewrite Hk.
Qed.

Lemma read_only_try_catch (c : M A) (h : exn → M A) :
  read_only c → (∀ e, read_only (h e)) → read_only (try_catch c h).
Proof.
  intros Hc Hh w. unfold try_catch. specialize (Hc w).
  destruct (c w) as [[e|a] w1]; simpl in *; [|done].
  by rewrite Hh.
Qed.

Lemma confined_bind f (c : M A) (k : A → M B) :
  confined f c → (∀ a, confined f (k a)) → confined f (bind c k).
Proof.
  intros Hc Hk w g Hg. unfold bind. specialize (Hc w g Hg).
  destruct (c w) as [[e|a] w1]; simpl in *; [done|].
  by rewrite Hk.
Qed.

End Effects.

Lemma read_only_readDataFile f : read_only (readDataFile f).
Proof.
  intros w. unfold readDataFile, try_catch, fs_readFile_parse.
  by destruct (disk w !! f) as [[|d]|].
Qed.

Lemma confined_writeDataFile f d : confined f (writeDataFile f d).
Proof.
  intros w g Hg. unfold writeDataFile, try_catch, fs_writeFile.
  destruct (decide (f ∈ readonly w)); simpl; [done|].
  by apply lookup_insert_ne.
Qed.

Lemma read_only_generateId : read_only generateId.
Proof. by intros w. Qed.

Lemma read_only_new_Date : read_only new_Date_toISOString.
Proof. by intros w. Qed.

Lemma read_only_array d : read_only (array d).
Proof. by destruct d. Qed.

Lemma read_only_Promise_all {A : Type} (ps : list (M A)) :
  Forall read_only ps → read_only (Promise_all ps).
Proof.
  induction 1 as [|p ps Hp _ IH]; intros w; [done|].
  cbn [Promise_all]. specialize (Hp w).
  destruct (p w) as [[e|a] w1]; simpl in *.
  - by rewrite IH.
  - specialize (IH w1). destruct (Promise_all ps w1) as [[e|l] w2]; simpl in *;
      congruence.
Qed.

(** Goes through an operation, one step of the monad at a time. *)
Ltac step_effects :=
  repeat first
    [ apply read_only_readDataFile
    | apply read_only_generateId
    | apply read_only_new_Date
    | apply read_only_array
    | apply read_only_ret
    | apply read_only_throw
    | apply confined_writeDataFile
    | apply read_only_bind; [|intros ?]
    | apply confined_bind; [|intros ?]
    | apply read_only_try_catch; [|intros ?]
    | progress cbv zeta
    | match goal with
      | |- read_only (if ?b then _ else _) => destruct b
      | |- confined _ (if ?b then _ else _) => destruct b
      | |- read_only (match ?o with Some _ => _ | None => _ end) => destruct o
      end
    | apply read_only_confined ].

(** X12. No operation of the service touches a file other than its own:
    the operations that look a record up, the lists and [getAllData] leave
    the whole disk as it is, and [create], [update] and [delete] on a
    collection leave every file but the one of the collection as it is;
    this whatever the files hold and however the operation ends. *)
Theorem operations_keep_to_their_file (c : collection) :
  (∀ id, read_only (Store.getById c id)) ∧
  (∀ slug, read_only (Store.getBySlug c slug)) ∧
  (∀ input, confined (filename c) (Store.create c input)) ∧
  (∀ id updates, confined (filename c) (Store.update c id updates)) ∧
  (∀ id, confined (filename c) (Store.delete c id)) ∧
  read_only getAllData.
Proof.
  split; [intros id; destruct c; open_store; by step_effects|].
  split; [intros slug; destruct c; open_store; by step_effects|].
  split; [intros input; destruct c; open_store; by step_effects|].
  split; [intros id updates; destruct c; open_store; by step_effects|].
  split; [intros id; destruct c; open_store; by step_effects|].
  unfold getAllData. apply read_only_bind.
  - apply read_only_Promise_all. repeat constructor; apply read_only_readDataFile.
  - intros [|? [|? [|? [|? [|? [|? ?]]]]]]; by step_effects.
Qed.

(** ** The SEO settings *)

(** X13. [updateSEOSettings] on settings that read and parse as an object,
    in a file that can be written, returns the payload merged over the
    settings (a field of the payload wins, the [id] included, every other
    field is kept), stores it, and a [getSEOSettings] right after returns
    what was returned. *)
Theorem updateSEOSettings_merges_and_stores (w : World) (settings updates : record) :
  disk w !! "seo-settings.json" = Some (Json (DObject settings)) →
  "seo-settings.json" ∉ readonly w →
  ∃ r w',
    updateSEOSettings updates w = (inr r, w') ∧
    (∀ field, r !! field =
       match updates !! field with Some v => Some v | None => settings !! field end) ∧
    getSEOSettings w' = (inr (DObject r), w') ∧
    trace w' = Wrote "seo-settings.json" :: trace w.
Proof.
  intros Hs Hw. eexists _, _. unfold updateSEOSettings, getSEOSettings.
  split; [by run_store|]. cbn [spread]. split; [|split].
  - intros field. rewrite lookup_union.
    by destruct (updates !! field), (settings !! field).
  - unfold readDataFile, try_catch, fs_readFile_parse, written. cbn [disk].
    by rewrite lookup_insert_eq.
  - reflexivity.
Qed.

Lemma updateSEOSettings_merges_and_stores_witness :
  let updates : record := <["siteName" := VStr "Spine Clinic"]> ∅ in
  disk seo_world !! "seo-settings.json" = Some (Json (DObject seo_settings)) ∧
  ("seo-settings.json" ∉ readonly seo_world) ∧
  ∃ r w',
    updateSEOSettings updates seo_world = (inr r, w') ∧
    r !! "siteName" = Some (VStr "Spine Clinic") ∧
    r !! "id" = Some (VStr "seo") ∧
    getSEOSettings w' = (inr (DObject r), w').
Proof.
  intros updates.
  assert (Hs : disk seo_world !! "seo-settings.json" = Some (Json (DObject seo_settings)))
    by reflexivity.
  assert (Hw : "seo-settings.json" ∉ readonly seo_world) by (simpl; set_solver).
  do 2 (split; [assumption|]).
  destruct (updateSEOSettings_merges_and_stores seo_world seo_settings updates Hs Hw)
    as (r & w' & Hrun & Hmerge & Hget & _).
  exists r, w'. split; [exact Hrun|].
  split; [exact (Hmerge "siteName")|]. split; [exact (Hmerge "id") | exact Hget].
Defined.

(** ** The routes *)

Lemma try_readDataFile_ok {T : Type} f d (k : document → M T) (h : exn → M T) w :
  disk w !! f = Some (Json d) →
  try_catch (bind (readDataFile f) k) h w = try_catch (k d) h w.
Proof. intros Hf. unfold try_catch. by erewrite bind_readDataFile. Qed.

Lemma try_readDataFile_fails {T : Type} f (k : document → M T) (h : exn → M T) w :
  unreadable w f →
  try_catch (bind (readDataFile f) k) h w
    = h (Error ("Failed to read " +:+ f)) (printed ("Error reading " +:+ f +:+ ":") w).
Proof. intros Hf. unfold try_catch. by rewrite bind_readDataFile_fails. Qed.

(** Opens the handler of the route at hand. *)
Ltac open_route :=
  cbn [Server.list_handler Server.list_file Server.list_error
       Server.slug_handler Server.slug_file Server.slug_missing Server.slug_error] in *;
  unfold Server.get_pages, Server.get_blog_posts, Server.get_doctors,
         Server.get_cases, Server.get_seo_settings, Server.get_services,
         Server.get_testimonials, Server.get_appointments, Server.get_categories,
         Server.get_contact, Server.get_settings, Server.get_skills,
         Server.get_articles,
         Server.get_page_by_slug, Server.get_blog_post_by_slug,
         Server.get_doctor_by_slug, Server.get_case_by_slug,
         Server.get_skill_by_slug, Server.get_article_by_slug,
         getPageBySlug, getBlogPostBySlug, getDoctorBySlug, getCaseBySlug,
         getPages, getBlogPosts, getDoctors, getCases, getSEOSettings,
         getServices, getTestimonials, getAppointments, getCategories,
         getContact, getSettings, getSkills, getArticles in *.

Lemma bind_assoc {A B C : Type} (c : M A) (k1 : A → M B) (k2 : B → M C) w :
  bind (bind c k1) k2 w = bind c (λ a, bind (k1 a) k2) w.
Proof. unfold bind. by destruct (c w) as [[e|a] w1]. Qed.

Lemma list_route_ok (r : Server.list_route) w d :
  disk w !! Server.list_file r = Some (Json d) →
  Server.list_handler r w = (inr (Server.mkResponse 200 (Server.ok d)), w).
Proof.
  intros Hd. destruct r; open_route; by rewrite (try_readDataFile_ok _ d) by done.
Qed.

Lemma list_route_unreadable (r : Server.list_route) w :
  unreadable w (Server.list_file r) →
  Server.list_handler r w =
    (inr (Server.mkResponse 500 (Server.failed (Server.list_error r))),
     printed ("Error reading " +:+ Server.list_file r +:+ ":") w).
Proof.
  intros Hbad. destruct r; open_route; by rewrite try_readDataFile_fails by done.
Qed.

(** X14. A route that sends a whole file answers 200 with the content of
    the file as [data] when the file reads and parses, whatever its shape,
    and 500 with the fixed error text of the route, and no detail of the
    failure, when it does not; in both cases the exception stays inside the
    handler. *)
Theorem list_route_answers (r : Server.list_route) (w : World) :
  (∀ d, disk w !! Server.list_file r = Some (Json d) →
        Server.list_handler r w = (inr (Server.mkResponse 200 (Server.ok d)), w)) ∧
  (unreadable w (Server.list_file r) →
   Server.list_handler r w =
     (inr (Server.mkResponse 500 (Server.failed (Server.list_error r))),
      printed ("Error reading " +:+ Server.list_file r +:+ ":") w)).
Proof.
  split.
  - intros d Hd. by apply list_route_ok.
  - intros Hbad. by apply list_route_unreadable.
Qed.

Lemma list_route_answers_witness :
  disk full_world !! Server.list_file Server.Contact = Some (Json (DObject ∅)) ∧
  unreadable damaged_world (Server.list_file Server.Doctors) ∧
  Server.list_handler Server.Contact full_world
    = (inr (Server.mkResponse 200 (Server.ok (DObject ∅))), full_world) ∧
  Server.list_handler Server.Doctors damaged_world
    = (inr (Server.mkResponse 500 (Server.failed "Failed to fetch doctors")),
       printed "Error reading doctors.json:" damaged_world).
Proof.
  assert (Hd : disk full_world !! Server.list_file Server.Contact
               = Some (Json (DObject ∅))) by reflexivity.
  assert (Hbad : unreadable damaged_world (Server.list_file Server.Doctors))
    by (right; reflexivity).
  do 2 (split; [assumption|]). split.
  - exact (proj1 (list_route_answers Server.Contact full_world) _ Hd).
  - exact (proj2 (list_route_answers Server.Doctors damaged_world) Hbad).
Defined.

(** Steps into the handler of a route by slug, up to the reading of the
    file. *)
Ltac enter_slug_route :=
  open_route; unfold try_catch; rewrite ?bind_assoc.

Lemma slug_route_runs (r : Server.slug_route) w rs slug :
  disk w !! Server.slug_file r = Some (Json (DArray rs)) →
  Server.slug_handler r slug w =
    (inr match find_or_null (field_is "slug" slug) rs with
         | Some x => Server.mkResponse 200 (Server.ok x)
         | None => Server.mkResponse 404 (Server.failed (Server.slug_missing r))
         end, w).
Proof.
  intros Hrs. unfold find_or_null.
  destruct r; enter_slug_route; erewrite bind_readDataFile by eassumption;
    unfold bind, find_or_null; cbn [array ret];
    by destruct (List.find (field_is "slug" slug) rs).
Qed.

Lemma slug_route_object (r : Server.slug_route) w o slug :
  disk w !! Server.slug_file r = Some (Json (DObject o)) →
  Server.slug_handler r slug w =
    (inr (Server.mkResponse 500 (Server.failed (Server.slug_error r))), w).
Proof.
  intros Ho. destruct r; enter_slug_route; by erewrite bind_readDataFile by eassumption.
Qed.

Lemma slug_route_unreadable (r : Server.slug_route) w slug :
  unreadable w (Server.slug_file r) →
  Server.slug_handler r slug w =
    (inr (Server.mkResponse 500 (Server.failed (Server.slug_error r))),
     printed ("Error reading " +:+ Server.slug_file r +:+ ":") w).
Proof.
  intros Hbad. destruct r; enter_slug_route; by rewrite bind_readDataFile_fails.
Qed.

(** X15. A route that sends one record by slug, on a file that parses as an
    array, answers 200 with the first record in stored order that has the
    slug, and 404 with the not-found text of the route when no record has
    it; on a file that parses as an object it answers 500, the [TypeError]
    caught by the handler; on a file that cannot be read it answers 500
    too.  Nothing is written. *)
Theorem slug_route_answers (r : Server.slug_route) (w : World) (slug : string) :
  (∀ rs pre x post,
     disk w !! Server.slug_file r = Some (Json (DArray rs)) →
     rs = pre ++ x :: post → absent "slug" slug pre → has "slug" slug x →
     Server.slug_handler r slug w = (inr (Server.mkResponse 200 (Server.ok x)), w)) ∧
  (∀ rs,
     disk w !! Server.slug_file r = Some (Json (DArray rs)) →
     absent "slug" slug rs →
     Server.slug_handler r slug w =
       (inr (Server.mkResponse 404 (Server.failed (Server.slug_missing r))), w)) ∧
  (∀ o,
     disk w !! Server.slug_file r = Some (Json (DObject o)) →
     Server.slug_handler r slug w =
       (inr (Server.mkResponse 500 (Server.failed (Server.slug_error r))), w)) ∧
  (unreadable w (Server.slug_file r) →
   Server.slug_handler r slug w =
     (inr (Server.mkResponse 500 (Server.failed (Server.slug_error r))),
      printed ("Error reading " +:+ Server.slug_file r +:+ ":") w)).
Proof.
  split; [|split; [|split]].
  - intros rs pre x post Hrs -> Hpre Hx.
    rewrite (slug_route_runs r w _ slug Hrs). by rewrite find_first.
  - intros rs Hrs Habs.
    rewrite (slug_route_runs r w _ slug Hrs). by rewrite find_absent.
  - intros o Ho. by eapply slug_route_object.
  - intros Hbad. by apply slug_route_unreadable.
Qed.

Lemma slug_route_answers_witness :
  disk skills_world !! Server.slug_file Server.SkillBySlug
    = Some (Json (DArray [skill_surgery])) ∧
  has "slug" "spine-surgery" skill_surgery ∧
  absent "slug" "knee" [skill_surgery] ∧
  disk misshapen_world !! Server.slug_file Server.PageBySlug
    = Some (Json (DObject page_home)) ∧
  Server.slug_handler Server.SkillBySlug "spine-surgery" skills_world
    = (inr (Server.mkResponse 200 (Server.ok skill_surgery)), skills_world) ∧
  Server.slug_handler Server.SkillBySlug "knee" skills_world
    = (inr (Server.mkResponse 404 (Server.failed "Skill not found")), skills_world) ∧
  Server.slug_handler Server.PageBySlug "home" misshapen_world
    = (inr (Server.mkResponse 500 (Server.failed "Failed to fetch page")),
       misshapen_world).
Proof.
  assert (Hrs : disk skills_world !! Server.slug_file Server.SkillBySlug
                = Some (Json (DArray [skill_surgery]))) by reflexivity.
  assert (Hx : has "slug" "spine-surgery" skill_surgery) by reflexivity.
  assert (Habs : absent "slug" "knee" [skill_surgery]) by absent_by_computation.
  assert (Ho : disk misshapen_world !! Server.slug_file Server.PageBySlug
               = Some (Json (DObject page_home))) by reflexivity.
  do 4 (split; [assumption|]).
  split; [|split].
  - destruct (slug_route_answers Server.SkillBySlug skills_world "spine-surgery")
      as (Hfound & _).
    apply (Hfound [skill_surgery] [] skill_surgery [] Hrs eq_refl); [constructor | exact Hx].
  - destruct (slug_route_answers Server.SkillBySlug skills_world "knee")
      as (_ & Hmissing & _).
    exact (Hmissing _ Hrs Habs).
  - destruct (slug_route_answers Server.PageBySlug misshapen_world "home")
      as (_ & _ & Hshape & _).
    exact (Hshape _ Ho).
Defined.

Lemma well_formed_ok {T : Type} (d : T) :
  well_formed (Server.mkResponse 200 (Server.ok d)).
Proof. split; [done|]. left. by repeat split. Qed.

Lemma well_formed_failed {T : Type} (code : Z) (e : string) :
  code = 404 ∨ code = 500 →
  well_formed (Server.mkResponse code (Server.failed e : Server.ApiResponse T)).
Proof. intros Hcode. split; [done|]. right. by repeat split. Qed.

Lemma list_route_answers_well (r : Server.list_route) w :
  answers_well (Server.list_handler r) w.
Proof.
  unfold answers_well.
  destruct (disk w !! Server.list_file r) as [[|d]|] eqn:Hf.
  - eexists _, _. split; [apply list_route_unreadable; by right|].
    split; [apply well_formed_failed; by right | reflexivity].
  - eexists _, _. split; [by apply list_route_ok|].
    split; [apply well_formed_ok | reflexivity].
  - eexists _, _. split; [apply list_route_unreadable; by left|].
    split; [apply well_formed_failed; by right | reflexivity].
Qed.

Lemma slug_route_answers_well (r : Server.slug_route) slug w :
  answers_well (Server.slug_handler r slug) w.
Proof.
  unfold answers_well.
  destruct (disk w !! Server.slug_file r) as [[|[rs|o]]|] eqn:Hf.
  - eexists _, _. split; [apply slug_route_unreadable; by right|].
    split; [apply well_formed_failed; by right | reflexivity].
  - eexists _, _. split; [by apply slug_route_runs|]. split; [|reflexivity].
    destruct (find_or_null (field_is "slug" slug) rs);
      [apply well_formed_ok | apply well_formed_failed; by left].
  - eexists _, _. split; [by eapply slug_route_object|].
    split; [apply well_formed_failed; by right | reflexivity].
  - eexists _, _. split; [apply slug_route_unreadable; by left|].
    split; [apply well_formed_failed; by right | reflexivity].
Qed.

(** X16. Whatever the data directory holds, every handler of the API sends
    a response and lets no exception out; the response is 200 with [success]
    true, the data and no error, or 404 or 500 with [success] false, an
    error text and no data, and never a [message]; the handler leaves every
    file as it is. *)
Theorem every_route_answers_well (w : World) :
  (∀ r, ∃ resp w',
     Server.list_handler r w = (inr resp, w') ∧ well_formed resp ∧ disk w' = disk w) ∧
  (∀ r slug, ∃ resp w',
     Server.slug_handler r slug w = (inr resp, w') ∧ well_formed resp ∧
     disk w' = disk w).
Proof.
  split.
  - intros r. apply list_route_answers_well.
  - intros r slug. apply slug_route_answers_well.
Qed.

(** ** Two updates in a row *)

Lemma updated_twice (c : collection) t1 t2 (updates1 updates2 r : record) :
  updated c t2 updates2 (updated c t1 updates1 r)
  = updated c t2 (updates2 ∪ updates1) r.
Proof.
  apply map_eq. intros field. unfold updated.
  destruct (update_stamp c) as [stamp|].
  - destruct (decide (stamp = field)) as [->|Hne].
    + by rewrite !lookup_insert_eq.
    + rewrite !lookup_insert_ne, !lookup_union, lookup_insert_ne, !lookup_union by done.
      by destruct (updates2 !! field), (updates1 !! field), (r !! field).
  - rewrite !lookup_union.
    by destruct (updates2 !! field), (updates1 !! field), (r !! field).
Qed.

Lemma writable_after_update (c : collection) d w :
  writable c w →
  writable c (written (filename c) d
                (match update_stamp c with Some _ => tick w | None => w end)).
Proof. unfold writable. by destruct c. Qed.

(** X17. Two updates of the same record in a row, the first with a payload
    that has no [id], amount to one update with the second payload merged
    over the first: the record returned and stored by the second update is
    the one that a single update with the merged payload builds at the
    clock reading of the second; every field but the timestamp of the
    collection is the one of [{...r, ...updates1, ...updates2}]. *)
Theorem updates_compose (c : collection) (w : World)
    (rs pre : list record) (r : record) (post : list record)
    (id : string) (updates1 updates2 : record) :
  stored c w rs → writable c w → first_with_id id rs pre r post →
  updates1 !! "id" = None →
  ∃ r1 w1 r2 w2,
    Store.update c id updates1 w = (inr (Some r1), w1) ∧
    Store.update c id updates2 w1 = (inr (Some r2), w2) ∧
    r2 = updated c (clock w1 0) (updates2 ∪ updates1) r ∧
    stored c w2 (pre ++ r2 :: post) ∧
    (∀ field, update_stamp c ≠ Some field →
              r2 !! field = (updates2 ∪ (updates1 ∪ r)) !! field).
Proof.
  intros Hrs Hw Hfirst Hu. pose proof Hfirst as (-> & Hpre & Hr).
  eexists _, _, _, _.
  split; [by eapply update_present|].
  split.
  { eapply update_present;
      [apply stored_written | by apply writable_after_update |].
    split; [reflexivity|]. split; [done | by apply updated_has_id]. }
  split; [apply updated_twice|]. split; [apply stored_written|].
  intros field Hne.
  rewrite updated_lookup by done. rewrite updated_lookup by done.
  rewrite !lookup_union.
  by destruct (updates2 !! field), (updates1 !! field), (r !! field).
Qed.

Lemma updates_compose_witness :
  let rs := [doctor_ab 1 2] in
  let w := sample_world Store.Doctors rs in
  let updates1 : record := <["b" := VNum 3]> ∅ in
  let updates2 : record := <["a" := VNum 5]> ∅ in
  stored Store.Doctors w rs ∧ writable Store.Doctors w ∧
  first_with_id "d1" rs [] (doctor_ab 1 2) [] ∧ updates1 !! "id" = None ∧
  ∃ r1 w1 r2 w2,
    Store.update Store.Doctors "d1" updates1 w = (inr (Some r1), w1) ∧
    Store.update Store.Doctors "d1" updates2 w1 = (inr (Some r2), w2) ∧
    r2 = doctor_ab 5 3 ∧
    stored Store.Doctors w2 [r2].
Proof.
  intros rs w updates1 updates2.
  assert (Hrs : stored Store.Doctors w rs) by reflexivity.
  assert (Hw : writable Store.Doctors w) by (unfold writable; simpl; set_solver).
  assert (Hfirst : first_with_id "d1" rs [] (doctor_ab 1 2) []).
  { split; [reflexivity|]. split; [constructor | reflexivity]. }
  assert (Hu : updates1 !! "id" = None) by reflexivity.
  do 4 (split; [assumption|]).
  destruct (updates_compose Store.Doctors w rs [] (doctor_ab 1 2) [] "d1"
              updates1 updates2 Hrs Hw Hfirst Hu)
    as (r1 & w1 & r2 & w2 & Hrun1 & Hrun2 & Hr2 & Hstored & _).
  exists r1, w1, r2, w2. do 2 (split; [assumption|]).
  split; [|exact Hstored].
  rewrite Hr2. vm_compute. reflexivity.
Defined.
